(** * Task management system: dependency graph engine

    A shallow embedding of [backend/tasks/models.py] and
    [backend/tasks/views.py]: the task and dependency tables, the graph
    built from the dependency rows, the depth-first cycle search, the
    status derivation and the two endpoints that create dependency rows. *)

From stdpp Require Import gmap list relations.
From Stdlib Require Import ZArith.

(** ** models.py *)

(** [Task.STATUS_CHOICES]: the four values the [status] column takes. *)
Inductive Status : Type :=
| STATUS_PENDING
| STATUS_IN_PROGRESS
| STATUS_COMPLETED
| STATUS_BLOCKED.

#[global] Instance Status_eq_dec : EqDecision Status.
Proof. solve_decision. Defined.

(** A [Task] instance as the views use it: its primary key and its
    [status].  The title, the description and the two timestamps are never
    read by the code embedded here. *)
Record Task : Type := mkTask { id : Z; status : Status }.

#[global] Instance Task_eq_dec : EqDecision Task.
Proof. solve_decision. Defined.

(** A [TaskDependency] row: [task] depends on [depends_on].  Both columns
    are foreign keys, read in the views through [task_id] and
    [depends_on_id]. *)
Record TaskDependency : Type :=
  mkDep { task_id : Z; depends_on_id : Z }.

#[global] Instance TaskDependency_eq_dec : EqDecision TaskDependency.
Proof. solve_decision. Defined.

(** The database: the task table, keyed by primary key, and the dependency
    rows in insertion order. *)
Record DB : Type :=
  mkDB { tasks : gmap Z Status; task_dependencies : list TaskDependency }.

(** ** views.py: the graph and the cycle search *)

(** [_build_graph]: one pass over the rows;
    [graph.setdefault(dep.task_id, []).append(dep.depends_on_id)]. *)
Definition _build_graph (rows : list TaskDependency) : gmap Z (list Z) :=
  foldl (λ graph dep,
           <[task_id dep := default [] (graph !! task_id dep) ++ [depends_on_id dep]]> graph)
        ∅ rows.

(** [graph.get(node, [])]. *)
Definition graph_get (graph : gmap Z (list Z)) (node : Z) : list Z :=
  default [] (graph !! node).

(** The variables captured by the closure [dfs].  [calls] is not in the
    source: it logs the argument of every call of [dfs], in call order, so
    that visits can be counted. *)
Record DfsState : Type :=
  mkDfs { visited : gset Z; stack : gset Z; path : list Z; calls : list Z }.

(** The [for neighbor in graph.get(node, [])] loop of [dfs]; [rec] is the
    recursive call.  The result [true] is the early [return True]. *)
Fixpoint for_neighbors (rec : Z → DfsState → option (bool * DfsState))
    (neighbors : list Z) (st : DfsState) : option (bool * DfsState) :=
  match neighbors with
  | [] => Some (false, st)
  | neighbor :: rest =>
      if decide (neighbor ∉ visited st) then
        match rec neighbor st with
        | None => None
        | Some (true, st') => Some (true, st')
        | Some (false, st') => for_neighbors rec rest st'
        end
      else if decide (neighbor ∈ stack st) then
        Some (true, mkDfs (visited st) (stack st) (path st ++ [neighbor]) (calls st))
      else for_neighbors rec rest st
  end.

(** [dfs], with the recursion depth bounded by [fuel]; [None] is fuel
    exhaustion. *)
Fixpoint dfs (graph : gmap Z (list Z)) (fuel : nat) (node : Z) (st : DfsState)
    : option (bool * DfsState) :=
  match fuel with
  | O => None
  | S fuel' =>
      let st1 := mkDfs (visited st ∪ {[node]}) (stack st ∪ {[node]})
                       (path st ++ [node]) (calls st ++ [node]) in
      match for_neighbors (dfs graph fuel') (graph_get graph node) st1 with
      | None => None
      | Some (true, st') => Some (true, st')
      | Some (false, st') =>
          Some (false, mkDfs (visited st') (stack st' ∖ {[node]})
                             (removelast (path st')) (calls st'))
      end
  end.

Definition dfs_init : DfsState := mkDfs ∅ ∅ [] [].

(** [detect_cycle] on the rows currently in the table, with explicit fuel,
    returning the final state of the search as well. *)
Definition detect_cycle_run (fuel : nat) (rows : list TaskDependency)
    (start_task_id : Z) : option (bool * DfsState) :=
  dfs (_build_graph rows) fuel start_task_id dfs_init.

(** [return has_cycle, path if has_cycle else []]. *)
Definition detect_cycle_fuel (fuel : nat) (rows : list TaskDependency)
    (start_task_id : Z) : option (bool * list Z) :=
  match detect_cycle_run fuel rows start_task_id with
  | None => None
  | Some (has_cycle, st) => Some (has_cycle, if has_cycle then path st else [])
  end.

(** Fuel that always suffices: the search enters each node at most once and
    the nodes it can enter are the start node and the targets of the rows. *)
Definition enough_fuel (rows : list TaskDependency) : nat := S (length rows).

Definition detect_cycle (rows : list TaskDependency) (start_task_id : Z)
    : bool * list Z :=
  default (false, []) (detect_cycle_fuel (enough_fuel rows) rows start_task_id).

(** ** views.py: status derivation *)

(** [Task.objects.filter(dependents__task=task)]: the join of the tasks
    with the dependency rows whose [task] is [task], one result per row. *)
Definition deps_query (db : DB) (task : Task) : list Task :=
  omap (λ dep, if decide (task_id dep = id task)
               then mkTask (depends_on_id dep) <$> tasks db !! depends_on_id dep
               else None)
       (task_dependencies db).

(** [task.save(update_fields=["status"])]: an UPDATE of the row with the
    task's primary key; Django raises [DatabaseError] ([None] here) when no
    row is affected. *)
Definition save_status (db : DB) (task : Task) : option DB :=
  match tasks db !! id task with
  | None => None
  | Some _ => Some (mkDB (<[id task := status task]> (tasks db)) (task_dependencies db))
  end.

(** [auto_update_task_status(task) -> None].  The result holds the returned
    value (Python's [None], here [tt]), the [task] object after the call and
    the database after the call; [None] is a raised exception. *)
Definition auto_update_task_status (db : DB) (task : Task)
    : option (unit * Task * DB) :=
  let deps := deps_query db task in
  if decide (deps = []) then Some (tt, task, db)
  else
    let task' :=
      if decide (filter (λ d, status d = STATUS_BLOCKED) deps ≠ []) then
        mkTask (id task) STATUS_BLOCKED
      else if decide (filter (λ d, status d ∈ [STATUS_PENDING; STATUS_IN_PROGRESS]) deps ≠ []) then
        mkTask (id task) STATUS_PENDING
      else if decide (length (filter (λ d, status d = STATUS_COMPLETED) deps) = length deps) then
        mkTask (id task) STATUS_IN_PROGRESS
      else task in
    match save_status db task' with
    | None => None
    | Some db' => Some (tt, task', db')
    end.

(** ** views.py: the endpoints that create dependency rows *)

Inductive Response : Type :=
| Http404_task_not_found                 (* [self.get_object()] found no task *)
| Http400_depends_on_id_required
| Http400_self_dependency                (* "Task cannot depend on itself" *)
| Http404_depends_on_not_found
| Http400_circular (path : list Z)       (* "Circular dependency detected" *)
| Http400_invalid                        (* serializer validation error *)
| Http201_created (row : TaskDependency).

#[global] Instance Response_eq_dec : EqDecision Response.
Proof. solve_decision. Defined.

(** [TaskDependency.objects.get_or_create(task=..., depends_on=...)]. *)
Definition get_or_create (db : DB) (row : TaskDependency) : DB :=
  if decide (row ∈ task_dependencies db) then db
  else mkDB (tasks db) (task_dependencies db ++ [row]).

(** [with transaction.atomic(): ...]: the block returns its result, the
    database it leaves and whether [transaction.set_rollback(True)] was
    called; on rollback the database is the one the block started from. *)
Definition atomic {A : Type} (db : DB) (block : DB → A * DB * bool) : A * DB :=
  let '(r, db', rollback) := block db in
  (r, if rollback then db else db').

(** [TaskViewSet.dependencies]: POST /api/tasks/{pk}/dependencies/ with the
    body field [depends_on_id] ([None] when the field is absent). *)
Definition dependencies (db : DB) (pk : Z) (depends_on_id : option Z)
    : Response * DB :=
  match tasks db !! pk with
  | None => (Http404_task_not_found, db)
  | Some _ =>
      match depends_on_id with
      | None => (Http400_depends_on_id_required, db)
      | Some depends_on =>
          if decide (depends_on = pk) then (Http400_self_dependency, db)
          else
            match tasks db !! depends_on with
            | None => (Http404_depends_on_not_found, db)
            | Some _ =>
                atomic db (λ db0,
                  let row := mkDep pk depends_on in
                  let db1 := get_or_create db0 row in
                  let '(is_circular, path) := detect_cycle (task_dependencies db1) pk in
                  if is_circular then (Http400_circular path, db1, true)
                  else (Http201_created row, db1, false))
            end
      end
  end.

(** The spec's [propose_edge(a, b)] is this endpoint with the field set. *)
Definition propose_edge (db : DB) (a b : Z) : Response * DB :=
  dependencies db a (Some b).

(** [TaskDependencyViewSet] inherits [create] from [ModelViewSet]: the
    [TaskDependencySerializer] checks that both primary keys name a task and
    that the pair is new ([unique_together]), then the row is saved.  The
    class body adds nothing to it. *)
Definition TaskDependencyViewSet_create (db : DB) (task depends_on : Z)
    : Response * DB :=
  match tasks db !! task, tasks db !! depends_on with
  | Some _, Some _ =>
      let row := mkDep task depends_on in
      if decide (row ∈ task_dependencies db) then (Http400_invalid, db)
      else (Http201_created row, mkDB (tasks db) (task_dependencies db ++ [row]))
  | _, _ => (Http400_invalid, db)
  end.

(** A sequence of [propose_edge] calls, listing the database after each. *)
Fixpoint run_proposals (db : DB) (requests : list (Z * Z)) : list DB :=
  match requests with
  | [] => []
  | (a, b) :: rest =>
      let db' := (propose_edge db a b).2 in
      db' :: run_proposals db' rest
  end.

(** ** The dependency relation and its paths *)

(** [edge rows x y]: the table holds the row "x depends on y". *)
Definition edge (rows : list TaskDependency) (x y : Z) : Prop :=
  mkDep x y ∈ rows.

(** No task reaches itself along one or more rows. *)
Definition acyclic (rows : list TaskDependency) : Prop :=
  ∀ n, ¬ tc (edge rows) n n.

(** Consecutive elements of a list are related. *)
Inductive chain (R : Z → Z → Prop) : list Z → Prop :=
| chain_nil : chain R []
| chain_one x : chain R [x]
| chain_cons x y l : R x y → chain R (y :: l) → chain R (x :: y :: l).

(** [x] is immediately followed by [y] somewhere in [l]. *)
Definition adjacent (x y : Z) (l : list Z) : Prop :=
  ∃ l1 l2, l = l1 ++ x :: y :: l2.

(** A closed loop: at least one step, ending where it starts. *)
Definition closed_loop (l : list Z) : Prop :=
  ∃ x mid, l = x :: mid ++ [x].

(** Two closed loops that go round the same cycle from different starts. *)
Definition loop_rotation (l1 l2 : list Z) : Prop :=
  ∃ x u v, l1 = x :: u ++ v ++ [x] ∧
           (v = [] ∧ l2 = l1 ∨ ∃ y w, v = y :: w ∧ l2 = y :: w ++ x :: u ++ [y]).

(** ** Invariants of the search *)

(** [arc graph x y]: [y] is listed among the neighbours of [x]. *)
Definition arc (graph : gmap Z (list Z)) (x y : Z) : Prop :=
  y ∈ graph_get graph x.

(** The nodes whose call of [dfs] has returned [False]. *)
Definition black (st : DfsState) : gset Z := visited st ∖ stack st.

(** What holds of the closure variables whenever [dfs] is entered or
    returns [False]: [stack] is the set of the nodes of [path], [path] is a
    duplicate-free chain of arcs, and the finished nodes are closed under
    arcs and lie on no cycle. *)
Record dfs_inv (graph : gmap Z (list Z)) (st : DfsState) : Prop := mk_dfs_inv {
  inv_stack : stack st = list_to_set (path st);
  inv_sub : stack st ⊆ visited st;
  inv_nodup : NoDup (path st);
  inv_chain : chain (arc graph) (path st);
  inv_closed : ∀ x y, x ∈ black st → arc graph x y → y ∈ black st;
  inv_acyclic : ∀ x, x ∈ black st → ¬ tc (arc graph) x x
}.

(** The log of calls lists the visited nodes, each once. *)
Definition log_inv (st : DfsState) : Prop :=
  visited st = list_to_set (calls st) ∧ NoDup (calls st).

(** What [path] holds when the search returns [True]: the chain [q] that
    was on the stack, extending [p], followed by a node [x] of [q]. *)
Definition found_cycle (graph : gmap Z (list Z)) (p : list Z) (st' : DfsState) : Prop :=
  ∃ q x, path st' = q ++ [x] ∧ p `prefix_of` q ∧ NoDup q ∧
         chain (arc graph) (q ++ [x]) ∧ x ∈ q.

(** The nodes the search from [start] can enter. *)
Definition universe (rows : list TaskDependency) (start : Z) : gset Z :=
  {[start]} ∪ list_to_set (depends_on_id <$> rows).

(** ** The status table of the specification *)

(** The table of the specification, read top to bottom, on the statuses of
    the direct dependencies and the current status. *)
Definition derive_status_table (deps : list Status) (current : Status) : Status :=
  if decide (deps = []) then current
  else if decide (STATUS_BLOCKED ∈ deps) then STATUS_BLOCKED
  else if decide (STATUS_PENDING ∈ deps ∨ STATUS_IN_PROGRESS ∈ deps) then STATUS_PENDING
  else STATUS_IN_PROGRESS.

(** ** The scenarios of the specification *)

(** Tasks 1, 2 and 3, freshly created ([default=STATUS_PENDING]). *)
Definition scenario_tasks : gmap Z Status :=
  {[ 1%Z := STATUS_PENDING; 2%Z := STATUS_PENDING; 3%Z := STATUS_PENDING ]}.

Definition scenario_db0 : DB := mkDB scenario_tasks [].

(** Scenario A after its two accepted requests. *)
Definition scenario_db2 : DB := mkDB scenario_tasks [mkDep 1 2; mkDep 2 3].

(** Task 1 depends on tasks 2 and 3, with the given statuses. *)
Definition status_db (s1 s2 s3 : Status) : DB :=
  mkDB {[ 1%Z := s1; 2%Z := s2; 3%Z := s3 ]} [mkDep 1 2; mkDep 1 3].

(** ** serializers.py *)

(** [TaskSerializer.get_depends_on]: the [depends_on_id] column of the rows
    whose [task] is [obj], as a list. *)
Definition get_depends_on (db : DB) (obj : Task) : list Z :=
  depends_on_id <$> filter (λ dep, task_id dep = id obj) (task_dependencies db).

(** [TaskSerializer.get_dependents]: the [task_id] column of the rows whose
    [depends_on] is [obj], as a list. *)
Definition get_dependents (db : DB) (obj : Task) : list Z :=
  task_id <$> filter (λ dep, depends_on_id dep = id obj) (task_dependencies db).

(** ** What the schema of models.py guarantees *)

(** Both columns of a row are foreign keys to existing tasks, and
    [unique_together] allows each pair once. *)
Definition well_formed (db : DB) : Prop :=
  NoDup (task_dependencies db) ∧
  ∀ dep, dep ∈ task_dependencies db →
         is_Some (tasks db !! task_id dep) ∧ is_Some (tasks db !! depends_on_id dep).

(** Deleting the task [pk] ([TaskViewSet] inherits [destroy] from
    [ModelViewSet]; [None] is the 404 of [get_object]): both foreign keys of
    [TaskDependency] are declared [on_delete=models.CASCADE], so the rows
    that mention the task go with it. *)
Definition TaskViewSet_destroy (db : DB) (pk : Z) : option DB :=
  match tasks db !! pk with
  | None => None
  | Some _ =>
      Some (mkDB (delete pk (tasks db))
                 (filter (λ dep, task_id dep ≠ pk ∧ depends_on_id dep ≠ pk)
                         (task_dependencies db)))
  end.

(** A cycle can be reached from [start] along the rows. *)
Definition reaches_cycle (rows : list TaskDependency) (start : Z) : Prop :=
  ∃ x, rtc (edge rows) start x ∧ tc (edge rows) x x.

(** ** The graph built from the rows *)

Lemma graph_get_build_graph (rows : list TaskDependency) (x : Z) :
  graph_get (_build_graph rows) x
  = depends_on_id <$> filter (λ dep, task_id dep = x) rows.
Proof.
  unfold graph_get, _build_graph.
  induction rows as [|dep rows IH] using rev_ind; [done|].
  rewrite foldl_app, filter_app, fmap_app. simpl.
  destruct (decide (task_id dep = x)) as [Heq|Hne].
  - rewrite filter_cons_True by done. rewrite filter_nil. subst x.
    rewrite lookup_insert_eq. simpl. by rewrite IH.
  - rewrite lookup_insert_ne by done. rewrite IH.
    rewrite filter_cons_False by done. rewrite filter_nil. simpl.
    by rewrite app_nil_r.
Qed.

Lemma elem_of_graph_get (rows : list TaskDependency) (x y : Z) :
  y ∈ graph_get (_build_graph rows) x ↔ edge rows x y.
Proof.
  rewrite graph_get_build_graph, list_elem_of_fmap. unfold edge. split.
  - intros ([t d] & -> & Hin). apply list_elem_of_filter in Hin as [Ht Hin].
    simpl in *. by subst.
  - intros Hin. exists (mkDep x y). split; [done|].
    apply list_elem_of_filter. by split.
Qed.

(** ** Chains *)

Section chains.
Context (R : Z → Z → Prop).

Lemma chain_snoc (l : list Z) (x y : Z) :
  chain R (l ++ [x]) → R x y → chain R ((l ++ [x]) ++ [y]).
Proof.
  induction l as [|a l IH]; simpl; intros Hc Hxy.
  - constructor; [done|constructor].
  - destruct l as [|b l]; simpl in *.
    + inversion Hc; subst. constructor; [done|]. constructor; [done|constructor].
    + inversion Hc; subst. constructor; [done|]. by apply IH.
Qed.

Lemma chain_tail (a : Z) (l : list Z) : chain R (a :: l) → chain R l.
Proof. inversion 1; subst; [constructor|done]. Qed.

Lemma chain_app_inv_r (l1 l2 : list Z) : chain R (l1 ++ l2) → chain R l2.
Proof.
  induction l1 as [|a l1 IH]; simpl; [done|].
  intros Hc. by apply IH, chain_tail with a.
Qed.

Lemma chain_tc (x y : Z) (l : list Z) : chain R (x :: l ++ [y]) → tc R x y.
Proof.
  revert x. induction l as [|a l IH]; simpl; intros x Hc.
  - inversion Hc; subst. by apply tc_once.
  - inversion Hc; subst. eapply tc_l; [done|]. by apply IH.
Qed.
End chains.

Lemma chain_adjacent_or (R R' : Z → Z → Prop) (a b : Z) (l : list Z) :
  (∀ x y, R' x y → R x y ∨ (x = a ∧ y = b)) →
  chain R' l → adjacent a b l ∨ chain R l.
Proof.
  intros HR. induction 1 as [|x|x y l Hxy Hc IH].
  - right. constructor.
  - right. constructor.
  - destruct IH as [(l1 & l2 & Heq)|IH].
    + left. exists (x :: l1), l2. by rewrite Heq.
    + destruct (HR _ _ Hxy) as [?|[-> ->]].
      * right. by constructor.
      * left. by exists [], l.
Qed.

(** ** Partial correctness of the search *)

Section dfs_correct.
Context (graph : gmap Z (list Z)).

Lemma black_closed_rtc (st : DfsState) (x y : Z) :
  dfs_inv graph st → x ∈ black st → rtc (arc graph) x y → y ∈ black st.
Proof.
  intros Hinv Hx Hr. induction Hr as [|x y z Hxy _ IH]; [done|].
  apply IH. by eapply inv_closed.
Qed.

(** Entering a node keeps the invariant. *)
Lemma dfs_inv_enter (st : DfsState) (node : Z) :
  dfs_inv graph st → node ∉ visited st → chain (arc graph) (path st ++ [node]) →
  dfs_inv graph (mkDfs (visited st ∪ {[node]}) (stack st ∪ {[node]})
                       (path st ++ [node]) (calls st ++ [node])).
Proof.
  intros [Hst Hsub Hnd Hch Hcl Hac] Hnode Hch'.
  assert (Hbl : black (mkDfs (visited st ∪ {[node]}) (stack st ∪ {[node]})
                             (path st ++ [node]) (calls st ++ [node])) = black st).
  { unfold black; simpl. set_solver. }
  split; simpl; try rewrite Hbl; try done.
  - rewrite Hst. set_solver.
  - set_solver.
  - apply NoDup_app. split_and!; [done| |apply NoDup_singleton].
    intros x Hx ->%list_elem_of_singleton. apply Hnode, Hsub. rewrite Hst. set_solver.
Qed.

(** Leaving a node whose neighbours are all finished keeps it too. *)
Lemma dfs_inv_leave (st st2 : DfsState) (node : Z) :
  dfs_inv graph st → node ∉ visited st →
  dfs_inv graph st2 → node ∈ visited st2 →
  stack st2 = stack st ∪ {[node]} → path st2 = path st ++ [node] →
  (∀ n, (arc graph) node n → n ∈ black st2) →
  dfs_inv graph (mkDfs (visited st2) (stack st2 ∖ {[node]})
                       (removelast (path st2)) (calls st2)).
Proof.
  intros Hinv Hnode Hinv2 Hvis Hst2 Hpa2 Hnb.
  assert (Hns : node ∉ stack st) by (intros ?; by apply Hnode, (inv_sub _ _ Hinv)).
  assert (Hbl : black (mkDfs (visited st2) (stack st2 ∖ {[node]})
                             (removelast (path st2)) (calls st2))
                = black st2 ∪ {[node]}).
  { unfold black; simpl. apply set_eq. intros x.
    destruct (decide (x = node)); set_solver. }
  split; simpl; try rewrite Hbl.
  - rewrite Hst2, Hpa2, removelast_last, <- (inv_stack _ _ Hinv). set_solver.
  - pose proof (inv_sub _ _ Hinv2). set_solver.
  - rewrite Hpa2, removelast_last. by apply (inv_nodup _ _ Hinv).
  - rewrite Hpa2, removelast_last. by apply (inv_chain _ _ Hinv).
  - intros x y [Hx| ->%elem_of_singleton]%elem_of_union Hxy.
    + apply elem_of_union_l. by eapply inv_closed.
    + apply elem_of_union_l. by apply Hnb.
  - intros x [Hx| ->%elem_of_singleton]%elem_of_union Hcyc.
    + by eapply inv_acyclic.
    + assert (node ∈ black st2) as Hb.
      { inversion Hcyc as [? ? Hw|? w ? Hw Hr]; subst; [by apply Hnb|].
        eapply black_closed_rtc; [done|by apply Hnb|by apply tc_rtc]. }
      unfold black in Hb. set_solver.
Qed.

Lemma log_inv_enter (st : DfsState) (node : Z) :
  log_inv st → node ∉ visited st →
  log_inv (mkDfs (visited st ∪ {[node]}) (stack st ∪ {[node]})
                 (path st ++ [node]) (calls st ++ [node])).
Proof.
  intros [Hv Hnd] Hnode. split; simpl.
  - rewrite Hv. set_solver.
  - apply NoDup_app. split_and!; [done| |apply NoDup_singleton].
    intros x Hx ->%list_elem_of_singleton. apply Hnode. rewrite Hv. set_solver.
Qed.

(** The loop over the neighbours of [v], given what the recursive calls
    guarantee. *)
Lemma for_neighbors_spec (rec : Z → DfsState → option (bool * DfsState)) (v : Z) :
  (∀ node st b st',
      dfs_inv graph st → log_inv st → node ∉ visited st →
      chain (arc graph) (path st ++ [node]) → rec node st = Some (b, st') →
      visited st ∪ {[node]} ⊆ visited st' ∧ log_inv st' ∧
      if b then found_cycle graph (path st ++ [node]) st'
      else dfs_inv graph st' ∧ stack st' = stack st ∧ path st' = path st) →
  ∀ ns st b st',
    dfs_inv graph st → log_inv st → (∃ p, path st = p ++ [v]) →
    (∀ n, n ∈ ns → (arc graph) v n) →
    for_neighbors rec ns st = Some (b, st') →
    visited st ⊆ visited st' ∧ log_inv st' ∧
    if b then found_cycle graph (path st) st'
    else dfs_inv graph st' ∧ stack st' = stack st ∧ path st' = path st ∧
         ∀ n, n ∈ ns → n ∈ black st'.
Proof.
  intros Hrec ns. induction ns as [|nb ns IH]; intros st b st' Hinv Hlog [p Hp] Harc Hrun;
    simpl in Hrun.
  - simplify_eq. split_and!; try done. intros n Hn. by apply not_elem_of_nil in Hn.
  - assert (Hnb : chain (arc graph) (path st ++ [nb])).
    { rewrite Hp. apply chain_snoc; [|apply Harc; left].
      rewrite <- Hp. by apply (inv_chain _ _ Hinv). }
    destruct (decide (nb ∉ visited st)) as [Hfresh|Hseen].
    + destruct (rec nb st) as [[[] st1]|] eqn:Hcall; try done.
      * simplify_eq. apply Hrec in Hcall as (Hsub & Hlog1 & q & x & Hq & Hpre & Hrest); try done.
        split_and!; [set_solver|done|].
        exists q, x. split_and!; try done; try apply Hrest.
        by eapply prefix_app_l.
      * apply Hrec in Hcall as (Hsub & Hlog1 & Hinv1 & Hst1 & Hpa1); try done.
        apply IH in Hrun as (Hsub2 & Hlog2 & Hres); try done.
        2:{ exists p. congruence. }
        2:{ intros n Hn. apply Harc. by right. }
        split_and!; [set_solver|done|]. destruct b.
        -- by rewrite <- Hpa1.
        -- destruct Hres as (Hinv2 & Hst2 & Hpa2 & Hbl).
           split_and!; [done|congruence|congruence|].
           intros n [->|Hn]%elem_of_cons; [|by apply Hbl].
           unfold black. pose proof (inv_sub _ _ Hinv). set_solver.
    + apply dec_stable in Hseen.
      destruct (decide (nb ∈ stack st)) as [Hon|Hoff].
      * simplify_eq. simpl. split_and!; [done|done|].
        exists (path st), nb. split_and!; try done.
        -- by apply (inv_nodup _ _ Hinv).
        -- rewrite (inv_stack _ _ Hinv) in Hon. set_solver.
      * apply IH in Hrun as (Hsub2 & Hlog2 & Hres); try done.
        2:{ by exists p. }
        2:{ intros n Hn. apply Harc. by right. }
        split_and!; [done|done|]. destruct b; [done|].
        destruct Hres as (Hinv2 & Hst2 & Hpa2 & Hbl).
        split_and!; try done.
        intros n [->|Hn]%elem_of_cons; [|by apply Hbl].
        unfold black. set_solver.
Qed.

(** What a call of [dfs] that returns guarantees. *)
Lemma dfs_spec (fuel : nat) :
  ∀ node st b st',
    dfs_inv graph st → log_inv st → node ∉ visited st →
    chain (arc graph) (path st ++ [node]) → dfs graph fuel node st = Some (b, st') →
    visited st ∪ {[node]} ⊆ visited st' ∧ log_inv st' ∧
    if b then found_cycle graph (path st ++ [node]) st'
    else dfs_inv graph st' ∧ stack st' = stack st ∧ path st' = path st.
Proof.
  induction fuel as [|fuel IH]; intros node st b st' Hinv Hlog Hnode Hch Hrun;
    simpl in Hrun; [done|].
  destruct (for_neighbors _ _ _) as [[b2 st2]|] eqn:Hloop; [|done].
  eapply (for_neighbors_spec _ node IH) in Hloop as (Hsub & Hlog2 & Hres).
  - destruct b2; simplify_eq; simpl in *.
    + split_and!; done.
    + destruct Hres as (Hinv2 & Hst2 & Hpa2 & Hbl).
      split_and!; simpl.
      * done.
      * done.
      * apply (dfs_inv_leave st); try done. set_solver.
      * rewrite Hst2. pose proof (inv_sub _ _ Hinv). set_solver.
      * by rewrite Hpa2, removelast_last.
  - by apply dfs_inv_enter.
  - by apply log_inv_enter.
  - by eexists.
  - done.
Qed.
End dfs_correct.

(** ** Termination of the search *)

Lemma for_neighbors_mono (rec rec' : Z → DfsState → option (bool * DfsState)) :
  (∀ node st r, rec node st = Some r → rec' node st = Some r) →
  ∀ ns st r, for_neighbors rec ns st = Some r → for_neighbors rec' ns st = Some r.
Proof.
  intros Hrec ns. induction ns as [|nb ns IH]; intros st r Hrun; simpl in *; [done|].
  destruct (decide (nb ∉ visited st)); [|destruct (decide (nb ∈ stack st)); auto].
  destruct (rec nb st) as [[[] st1]|] eqn:Hcall; [| |done];
    rewrite (Hrec _ _ _ Hcall); auto.
Qed.

(** More fuel does not change a result. *)
Lemma dfs_fuel_mono (graph : gmap Z (list Z)) (fuel fuel' : nat) (node : Z)
    (st : DfsState) (r : bool * DfsState) :
  fuel ≤ fuel' → dfs graph fuel node st = Some r → dfs graph fuel' node st = Some r.
Proof.
  revert fuel' node st r.
  induction fuel as [|fuel IH]; intros fuel' node st r Hle Hrun; simpl in Hrun; [done|].
  destruct fuel' as [|fuel']; [lia|]. simpl.
  destruct (for_neighbors _ _ _) as [[b st1]|] eqn:Hloop; [|done].
  rewrite (for_neighbors_mono (dfs graph fuel) (dfs graph fuel') 
             (λ n s r' Hr', IH fuel' n s r' ltac:(lia) Hr') _ _ _ Hloop).
  by destruct b.
Qed.

Section dfs_terminates.
Context (graph : gmap Z (list Z)) (U : gset Z).
Hypothesis U_closed : ∀ x y, x ∈ U → arc graph x y → y ∈ U.

Lemma for_neighbors_terminates (rec : Z → DfsState → option (bool * DfsState)) (bound : nat) :
  (∀ node st, node ∈ U → node ∉ visited st → size (U ∖ visited st) ≤ bound →
              ∃ b st', rec node st = Some (b, st') ∧
                       visited st ⊆ visited st' ∧ visited st' ⊆ visited st ∪ U) →
  ∀ ns st, (∀ n, n ∈ ns → n ∈ U) → size (U ∖ visited st) ≤ bound →
           ∃ b st', for_neighbors rec ns st = Some (b, st') ∧
                    visited st ⊆ visited st' ∧ visited st' ⊆ visited st ∪ U.
Proof.
  intros Hrec ns. induction ns as [|nb ns IH]; intros st HU Hsize; simpl.
  - exists false, st. set_solver.
  - assert (HU' : ∀ n, n ∈ ns → n ∈ U) by (intros n Hn; apply HU; by right).
    destruct (decide (nb ∉ visited st)) as [Hfresh|Hseen].
    + destruct (Hrec nb st) as (b & st1 & -> & Hsub & Hin); [apply HU; by left|done|done|].
      destruct b; [by exists true, st1|].
      destruct (IH st1 HU') as (b & st2 & -> & Hsub2 & Hin2).
      * etrans; [|exact Hsize]. apply subseteq_size. set_solver.
      * exists b, st2. split; [done|]. set_solver.
    + destruct (decide (nb ∈ stack st)); [|by apply IH].
      eexists true, _. split; [done|]. simpl. set_solver.
Qed.

(** [dfs] returns whenever the fuel covers the unvisited nodes it can reach. *)
Lemma dfs_terminates (fuel : nat) :
  ∀ node st, node ∈ U → node ∉ visited st → size (U ∖ visited st) ≤ fuel →
             ∃ b st', dfs graph fuel node st = Some (b, st') ∧
                      visited st ⊆ visited st' ∧ visited st' ⊆ visited st ∪ U.
Proof.
  induction fuel as [|fuel IH]; intros node st HU Hfresh Hsize.
  - assert (U ∖ visited st ≡ ∅) as Hempty by (apply size_empty_iff; lia).
    set_solver.
  - simpl.
    destruct (for_neighbors_terminates (dfs graph fuel) fuel IH (graph_get graph node)
                (mkDfs (visited st ∪ {[node]}) (stack st ∪ {[node]})
                       (path st ++ [node]) (calls st ++ [node])))
      as (b & st1 & -> & Hsub & Hin).
    + intros n Hn. by apply (U_closed node).
    + simpl. assert (U ∖ (visited st ∪ {[node]}) ⊂ U ∖ visited st) as Hlt by set_solver.
      apply subset_size in Hlt. lia.
    + simpl in Hsub, Hin. destruct b; eexists _, _; (split; [done|]); simpl; set_solver.
Qed.
End dfs_terminates.

(** ** [detect_cycle] *)

Lemma chain_impl (R R' : Z → Z → Prop) (l : list Z) :
  (∀ x y, R x y → R' x y) → chain R l → chain R' l.
Proof. intros HR. induction 1; constructor; auto. Qed.

Lemma tc_impl (R R' : Z → Z → Prop) (x y : Z) :
  (∀ a b, R a b → R' a b) → tc R x y → tc R' x y.
Proof.
  intros HR. induction 1 as [x y Hxy|x y z Hxy _ IH].
  - by apply tc_once, HR.
  - eapply tc_l; [by apply HR|done].
Qed.

Lemma tc_arc_edge (rows : list TaskDependency) (x y : Z) :
  tc (arc (_build_graph rows)) x y ↔ tc (edge rows) x y.
Proof.
  split; apply tc_impl; intros a b; unfold arc; by rewrite elem_of_graph_get.
Qed.

Lemma size_list_to_set_le (l : list Z) : size (list_to_set (C:=gset Z) l) ≤ length l.
Proof.
  induction l as [|x l IH]; simpl; [done|].
  - rewrite size_union_alt, size_singleton.
    assert (list_to_set (C:=gset Z) l ∖ {[x]} ⊆ list_to_set l) as Hsub by set_solver.
    apply subseteq_size in Hsub. lia.
Qed.

Lemma size_universe (rows : list TaskDependency) (start : Z) :
  size (universe rows start) ≤ enough_fuel rows.
Proof.
  unfold universe, enough_fuel. rewrite size_union_alt, size_singleton.
  pose proof (size_list_to_set_le (depends_on_id <$> rows)) as Hle.
  rewrite length_fmap in Hle.
  assert (list_to_set (C:=gset Z) (depends_on_id <$> rows) ∖ {[start]}
          ⊆ list_to_set (depends_on_id <$> rows)) as Hsub by set_solver.
  apply subseteq_size in Hsub. lia.
Qed.

Lemma universe_closed (rows : list TaskDependency) (start x y : Z) :
  x ∈ universe rows start → arc (_build_graph rows) x y → y ∈ universe rows start.
Proof.
  intros _ Hxy. apply elem_of_graph_get in Hxy. unfold universe, edge in *.
  apply elem_of_union_r, elem_of_list_to_set, list_elem_of_fmap.
  by exists (mkDep x y).
Qed.

Lemma dfs_inv_init (graph : gmap Z (list Z)) : dfs_inv graph dfs_init.
Proof.
  split; simpl; try done; try constructor; unfold black; simpl; set_solver.
Qed.

Lemma log_inv_init : log_inv dfs_init.
Proof. split; simpl; [done|constructor]. Qed.

(** The search returns once the fuel is at least [enough_fuel], and it
    visits only the start node and targets of rows. *)
Lemma detect_cycle_run_terminates (fuel : nat) (rows : list TaskDependency) (start : Z) :
  enough_fuel rows ≤ fuel →
  ∃ b st', detect_cycle_run fuel rows start = Some (b, st') ∧
           visited st' ⊆ universe rows start.
Proof.
  intros Hfuel. unfold detect_cycle_run.
  destruct (dfs_terminates (_build_graph rows) (universe rows start)
              (universe_closed rows start) fuel start dfs_init)
    as (b & st' & Hrun & _ & Hin).
  - unfold universe. set_solver.
  - simpl. set_solver.
  - etrans; [|exact Hfuel]. etrans; [|apply (size_universe rows start)].
    apply subseteq_size. set_solver.
  - exists b, st'. split; [done|]. simpl in Hin. set_solver.
Qed.

Lemma detect_cycle_fuel_enough (fuel : nat) (rows : list TaskDependency) (start : Z) :
  enough_fuel rows ≤ fuel →
  detect_cycle_fuel fuel rows start = Some (detect_cycle rows start).
Proof.
  intros Hfuel. unfold detect_cycle, detect_cycle_fuel.
  destruct (detect_cycle_run_terminates (enough_fuel rows) rows start)
    as (b & st' & Hrun & _); [done|].
  rewrite Hrun. unfold detect_cycle_run in *.
  by rewrite (dfs_fuel_mono _ _ fuel _ _ _ Hfuel Hrun).
Qed.

(** What the final state of a search that returned satisfies. *)
Lemma detect_cycle_run_spec (fuel : nat) (rows : list TaskDependency) (start : Z)
    (b : bool) (st' : DfsState) :
  detect_cycle_run fuel rows start = Some (b, st') →
  start ∈ visited st' ∧ log_inv st' ∧
  if b then found_cycle (_build_graph rows) [start] st'
  else dfs_inv (_build_graph rows) st' ∧ stack st' = ∅ ∧ path st' = [].
Proof.
  intros Hrun. unfold detect_cycle_run in Hrun.
  apply dfs_spec in Hrun as (Hsub & Hlog & Hres).
  - split_and!; [set_solver|done|done].
  - apply dfs_inv_init.
  - apply log_inv_init.
  - simpl. set_solver.
  - simpl. constructor.
Qed.

(** A search that finds nothing leaves no cycle through the start node. *)
Lemma detect_cycle_false (rows : list TaskDependency) (start : Z) (p : list Z) :
  detect_cycle rows start = (false, p) → p = [] ∧ ¬ tc (edge rows) start start.
Proof.
  intros Hdc.
  pose proof (detect_cycle_fuel_enough (enough_fuel rows) rows start (le_n _)) as Hf.
  rewrite Hdc in Hf. unfold detect_cycle_fuel in Hf.
  destruct (detect_cycle_run _ _ _) as [[b st']|] eqn:Hrun; [|done].
  simplify_eq. apply detect_cycle_run_spec in Hrun as (Hin & _ & Hinv & Hst & _).
  split; [done|]. rewrite <- tc_arc_edge. apply (inv_acyclic _ _ Hinv).
  unfold black. rewrite Hst. set_solver.
Qed.

(** A search that finds a cycle returns the chain of rows from the start
    node that was on the stack, followed by one of its nodes. *)
Lemma detect_cycle_true (rows : list TaskDependency) (start : Z) (p : list Z) :
  detect_cycle rows start = (true, p) →
  ∃ q x, p = start :: q ++ [x] ∧ NoDup (start :: q) ∧
         chain (edge rows) (start :: q ++ [x]) ∧ x ∈ start :: q.
Proof.
  intros Hdc.
  pose proof (detect_cycle_fuel_enough (enough_fuel rows) rows start (le_n _)) as Hf.
  rewrite Hdc in Hf. unfold detect_cycle_fuel in Hf.
  destruct (detect_cycle_run _ _ _) as [[b st']|] eqn:Hrun; [|done].
  simplify_eq. apply detect_cycle_run_spec in Hrun as (_ & _ & q & x & Hq & [k ->] & Hnd & Hch & Hx).
  exists k, x. simpl in *. split_and!; try done.
  eapply chain_impl; [|done]. intros a b. unfold arc. by rewrite elem_of_graph_get.
Qed.

(** ** Adding one row to an acyclic table *)

Lemma tc_added_edge (R R' : Z → Z → Prop) (a b x y : Z) :
  (∀ u v, R' u v → R u v ∨ (u = a ∧ v = b)) →
  tc R' x y → tc R x y ∨ (rtc R' x a ∧ rtc R' b y).
Proof.
  intros HR. induction 1 as [x y Hxy|x y z Hxy Hyz IH].
  - destruct (HR _ _ Hxy) as [?|[-> ->]]; [left; by apply tc_once|by right].
  - destruct (HR _ _ Hxy) as [Hold|[-> ->]].
    + destruct IH as [?|[? ?]]; [left; by eapply tc_l|].
      right. split; [by eapply rtc_l|done].
    + right. split; [done|by apply tc_rtc].
Qed.

Lemma acyclic_add_edge (rows rows' : list TaskDependency) (a b : Z) :
  acyclic rows →
  (∀ r, r ∈ rows' → r ∈ rows ∨ r = mkDep a b) →
  mkDep a b ∈ rows' →
  ¬ tc (edge rows') a a →
  acyclic rows'.
Proof.
  intros Hac Hsub Hin Hna n Hn.
  destruct (tc_added_edge (edge rows) (edge rows') a b n n) as [Hold|[Hna' Hbn]]; [|done|..].
  - intros u v Huv. destruct (Hsub _ Huv) as [?|Heq]; [by left|]. right. by simplify_eq.
  - by apply (Hac n).
  - apply Hna. eapply tc_rtc_r; [by apply tc_once|]. by etrans.
Qed.

Lemma acyclic_nil : acyclic [].
Proof.
  intros n Hn. assert (∀ x y, tc (edge []) x y → False) as Hno; [|by eapply Hno].
  induction 1 as [x y Hxy|]; [|done]. unfold edge in Hxy. by apply not_elem_of_nil in Hxy.
Qed.

Lemma snoc_adjacent_elem (l k1 k2 : list Z) (x a b : Z) :
  l ++ [x] = k1 ++ a :: b :: k2 → a ∈ l.
Proof.
  destruct k2 as [|z k2 _] using rev_ind; intros Heq.
  - change (k1 ++ [a; b]) with (k1 ++ [a] ++ [b]) in Heq. rewrite app_assoc in Heq.
    apply app_inj_tail in Heq as [-> _]. set_solver.
  - change (k1 ++ a :: b :: k2 ++ [z]) with (k1 ++ (a :: b :: k2) ++ [z]) in Heq.
    rewrite app_assoc in Heq. apply app_inj_tail in Heq as [-> _]. set_solver.
Qed.

(** ** The endpoint [dependencies] *)

Lemma get_or_create_tasks (db : DB) (row : TaskDependency) :
  tasks (get_or_create db row) = tasks db.
Proof. unfold get_or_create. by case_decide. Qed.

Lemma get_or_create_elem (db : DB) (row : TaskDependency) :
  row ∈ task_dependencies (get_or_create db row).
Proof. unfold get_or_create. case_decide; simpl; set_solver. Qed.

Lemma get_or_create_inv (db : DB) (row r : TaskDependency) :
  r ∈ task_dependencies (get_or_create db row) → r ∈ task_dependencies db ∨ r = row.
Proof. unfold get_or_create. case_decide; simpl; set_solver. Qed.

Lemma get_or_create_present (db : DB) (row : TaskDependency) :
  row ∈ task_dependencies db → get_or_create db row = db.
Proof. intros Hin. unfold get_or_create. by rewrite decide_True. Qed.

(** The only way to a 201: both tasks exist, they differ, and the search on
    the staged table finds nothing. *)
Lemma propose_edge_created (db : DB) (a b : Z) (row : TaskDependency) (db' : DB) :
  propose_edge db a b = (Http201_created row, db') →
  is_Some (tasks db !! a) ∧ is_Some (tasks db !! b) ∧ b ≠ a ∧ row = mkDep a b ∧
  db' = get_or_create db row ∧
  detect_cycle (task_dependencies db') a = (false, []).
Proof.
  unfold propose_edge, dependencies, atomic.
  destruct (tasks db !! a) eqn:Ha; [|done].
  destruct (decide (b = a)) as [|Hne]; [done|].
  destruct (tasks db !! b) eqn:Hb; [|done].
  destruct (detect_cycle _ a) as [[] p] eqn:Hdc; [done|].
  intros [= <- <-]. destruct (detect_cycle_false _ _ _ Hdc) as [-> _].
  split_and!; by eauto.
Qed.

(** The only way to the "Circular dependency detected" response. *)
Lemma propose_edge_circular (db : DB) (a b : Z) (p : list Z) (db' : DB) :
  propose_edge db a b = (Http400_circular p, db') →
  db' = db ∧ b ≠ a ∧
  detect_cycle (task_dependencies (get_or_create db (mkDep a b))) a = (true, p).
Proof.
  unfold propose_edge, dependencies, atomic.
  destruct (tasks db !! a) eqn:Ha; [|done].
  destruct (decide (b = a)) as [|Hne]; [done|].
  destruct (tasks db !! b) eqn:Hb; [|done].
  destruct (detect_cycle _ a) as [[] p'] eqn:Hdc; [|done].
  by intros [= <- <-].
Qed.

(** Every call either leaves the database as it was or answers 201. *)
Lemma propose_edge_cases (db : DB) (a b : Z) :
  (propose_edge db a b).2 = db ∨
  ∃ row, propose_edge db a b = (Http201_created row, (propose_edge db a b).2).
Proof.
  unfold propose_edge, dependencies, atomic.
  destruct (tasks db !! a); [|by left].
  destruct (decide (b = a)); [by left|].
  destruct (tasks db !! b); [|by left].
  destruct (detect_cycle _ a) as [[] p]; [by left|]. right. by eexists.
Qed.

Lemma propose_edge_acyclic (db : DB) (a b : Z) :
  acyclic (task_dependencies db) →
  acyclic (task_dependencies (propose_edge db a b).2).
Proof.
  intros Hac. destruct (propose_edge_cases db a b) as [->|[row Hrow]]; [done|].
  destruct (propose_edge db a b) as [resp db'] eqn:Hcall. simpl in *. simplify_eq.
  apply propose_edge_created in Hcall as (_ & _ & _ & -> & -> & Hdc).
  apply detect_cycle_false in Hdc as [_ Hno].
  eapply acyclic_add_edge; [done| |apply get_or_create_elem|done].
  apply get_or_create_inv.
Qed.

(** A cycle reported on a table that was acyclic before the row was staged
    starts and ends at the task of the request and runs through the new row. *)
Lemma circular_path_shape (rows rows' : list TaskDependency) (a b : Z) (p : list Z) :
  acyclic rows →
  (∀ r, r ∈ rows' → r ∈ rows ∨ r = mkDep a b) →
  detect_cycle rows' a = (true, p) →
  (∃ q, p = a :: q ++ [a] ∧ NoDup (a :: q)) ∧ chain (edge rows') p ∧ adjacent a b p.
Proof.
  intros Hac Hsub Hdc.
  apply detect_cycle_true in Hdc as (q & x & -> & Hnd & Hch & Hx).
  apply list_elem_of_split in Hx as (l1 & l2 & Hsplit).
  assert (Hloop : chain (edge rows') (x :: l2 ++ [x])).
  { apply (chain_app_inv_r _ l1). change (x :: l2 ++ [x]) with ((x :: l2) ++ [x]).
    rewrite app_assoc, <- Hsplit. done. }
  destruct (chain_adjacent_or (edge rows) (edge rows') a b _
              ltac:(intros u v Huv; destruct (Hsub _ Huv); [by left|right; by simplify_eq])
              Hloop) as [(k1 & k2 & Hadj)|Hold].
  2:{ exfalso. by apply (Hac x), (chain_tc _ _ _ l2). }
  assert (Ha : a ∈ x :: l2).
  { eapply (snoc_adjacent_elem _ k1 k2 x a b). by rewrite <- Hadj. }
  destruct l1 as [|a' l1]; simpl in Hsplit.
  - injection Hsplit as <- <-. split_and!; [by eexists|done|by exists k1, k2].
  - injection Hsplit as <- Hq. exfalso. rewrite Hq in Hnd.
    apply NoDup_cons in Hnd as [Hnotin _]. apply Hnotin. set_solver.
Qed.

Lemma propose_edge_unfold (db : DB) (a b : Z) :
  is_Some (tasks db !! a) → is_Some (tasks db !! b) → b ≠ a →
  propose_edge db a b =
    let db1 := get_or_create db (mkDep a b) in
    match detect_cycle (task_dependencies db1) a with
    | (true, p) => (Http400_circular p, db)
    | (false, _) => (Http201_created (mkDep a b), db1)
    end.
Proof.
  intros [sa Ha] [sb Hb] Hne. unfold propose_edge, dependencies, atomic.
  rewrite Ha, Hb, decide_False by done. simpl.
  by destruct (detect_cycle _ a) as [[] p].
Qed.

Lemma scenario_db2_acyclic : acyclic (task_dependencies scenario_db2).
Proof.
  exact (propose_edge_acyclic (propose_edge scenario_db0 1 2).2 2 3
           (propose_edge_acyclic scenario_db0 1 2 acyclic_nil)).
Qed.

(** ** The claims about [propose_edge] *)

(** C1. Acyclicity invariant: starting from an acyclic table, the table
    after every [propose_edge] call of a sequence, accepted or rejected, is
    acyclic (and there is one such table per call). *)
Theorem proposals_keep_acyclic (db : DB) (requests : list (Z * Z)) :
  acyclic (task_dependencies db) →
  length (run_proposals db requests) = length requests ∧
  Forall (λ db', acyclic (task_dependencies db')) (run_proposals db requests).
Proof.
  revert db. induction requests as [|[a b] requests IH]; intros db Hac; simpl.
  - by split.
  - pose proof (propose_edge_acyclic db a b Hac) as Hac'.
    destruct (IH _ Hac') as [Hlen Hall]. split; [by rewrite Hlen|by constructor].
Qed.

Lemma proposals_keep_acyclic_witness :
  length (run_proposals scenario_db0 [(1, 2); (2, 3); (3, 1)]%Z) = 3 ∧
  Forall (λ db', acyclic (task_dependencies db'))
         (run_proposals scenario_db0 [(1, 2); (2, 3); (3, 1)]%Z).
Proof.
  apply (proposals_keep_acyclic scenario_db0 [(1, 2); (2, 3); (3, 1)]%Z).
  exact acyclic_nil.
Defined.

(** C2. Atomicity: a call answered "Circular dependency detected" leaves
    the database, and so the dependency table, exactly as it was. *)
Theorem circular_rejection_rolls_back (db : DB) (a b : Z) (p : list Z) (db' : DB) :
  a ≠ b →
  propose_edge db a b = (Http400_circular p, db') →
  db' = db ∧ task_dependencies db' = task_dependencies db.
Proof.
  intros _ Hcall. apply propose_edge_circular in Hcall as (-> & _ & _). by split.
Qed.

Lemma circular_rejection_rolls_back_witness :
  scenario_db2 = scenario_db2 ∧
  task_dependencies scenario_db2 = task_dependencies scenario_db2.
Proof.
  apply (circular_rejection_rolls_back scenario_db2 3 1 [3; 1; 2; 3]%Z scenario_db2).
  - lia.
  - vm_compute. reflexivity.
Defined.

(** C3. Self-dependency rejection: for an existing task [t],
    [propose_edge t t] answers "Task cannot depend on itself" and leaves the
    database unchanged. *)
Theorem self_dependency_rejected (db : DB) (t : Z) :
  is_Some (tasks db !! t) →
  propose_edge db t t = (Http400_self_dependency, db).
Proof.
  intros [s Ht]. unfold propose_edge, dependencies. rewrite Ht.
  by rewrite decide_True.
Qed.

Lemma self_dependency_rejected_witness :
  propose_edge scenario_db2 2 2 = (Http400_self_dependency, scenario_db2).
Proof.
  apply (self_dependency_rejected scenario_db2 2). vm_compute. eexists. reflexivity.
Defined.

(** C4. Idempotent add: once [propose_edge a b] has been accepted, the same
    request on the resulting database is accepted again and changes
    nothing. *)
Theorem propose_edge_idempotent (db : DB) (a b : Z) (row : TaskDependency) (db1 : DB) :
  a ≠ b →
  propose_edge db a b = (Http201_created row, db1) →
  propose_edge db1 a b = (Http201_created row, db1).
Proof.
  intros _ Hcall.
  apply propose_edge_created in Hcall as (Ha & Hb & Hne & -> & -> & Hdc).
  rewrite propose_edge_unfold; rewrite ?get_or_create_tasks; try done.
  simpl. rewrite (get_or_create_present (get_or_create db _)) by apply get_or_create_elem.
  by rewrite Hdc.
Qed.

Lemma propose_edge_idempotent_witness :
  propose_edge (mkDB scenario_tasks [mkDep 1 2; mkDep 2 3; mkDep 1 3]) 1 3
  = (Http201_created (mkDep 1 3), mkDB scenario_tasks [mkDep 1 2; mkDep 2 3; mkDep 1 3]).
Proof.
  apply (propose_edge_idempotent scenario_db2 1 3).
  - lia.
  - vm_compute. reflexivity.
Defined.

(** C8. Cycle witness: when [propose_edge a b] on an acyclic table answers
    "Circular dependency detected", the reported path is a closed loop
    through the staged table that runs through the new row; in Scenario A
    the third request is answered with the loop [3, 1, 2, 3], a rotation of
    [1, 2, 3, 1], and the table keeps its two rows. *)
Theorem cycle_witness_is_closed_loop :
  (∀ db a b p db',
      acyclic (task_dependencies db) →
      propose_edge db a b = (Http400_circular p, db') →
      closed_loop p ∧ head p = Some a ∧
      chain (edge (task_dependencies (get_or_create db (mkDep a b)))) p ∧
      adjacent a b p) ∧
  (∀ tbl : gmap Z Status,
      is_Some (tbl !! 1%Z) → is_Some (tbl !! 2%Z) → is_Some (tbl !! 3%Z) →
      propose_edge (mkDB tbl []) 1 2
        = (Http201_created (mkDep 1 2), mkDB tbl [mkDep 1 2]) ∧
      propose_edge (mkDB tbl [mkDep 1 2]) 2 3
        = (Http201_created (mkDep 2 3), mkDB tbl [mkDep 1 2; mkDep 2 3]) ∧
      propose_edge (mkDB tbl [mkDep 1 2; mkDep 2 3]) 3 1
        = (Http400_circular [3; 1; 2; 3]%Z, mkDB tbl [mkDep 1 2; mkDep 2 3]) ∧
      loop_rotation [1; 2; 3; 1]%Z [3; 1; 2; 3]%Z).
Proof.
  split.
  - intros db a b p db' Hac Hcall.
    apply propose_edge_circular in Hcall as (_ & _ & Hdc).
    destruct (circular_path_shape (task_dependencies db) _ a b p Hac
                (get_or_create_inv db (mkDep a b)) Hdc) as ((q & -> & _) & Hch & Hadj).
    split_and!; [by exists a, q|done|done|done].
  - intros tbl H1 H2 H3. split_and!.
    + by rewrite propose_edge_unfold.
    + by rewrite propose_edge_unfold.
    + by rewrite propose_edge_unfold.
    + exists 1%Z, [2%Z], [3%Z]. split; [done|]. right. by exists 3%Z, [].
Qed.

Lemma cycle_witness_is_closed_loop_witness :
  closed_loop [3; 1; 2; 3]%Z ∧ head [3; 1; 2; 3]%Z = Some 3%Z ∧
  chain (edge (task_dependencies (get_or_create scenario_db2 (mkDep 3 1)))) [3; 1; 2; 3]%Z ∧
  adjacent 3 1 [3; 1; 2; 3]%Z.
Proof.
  apply (proj1 cycle_witness_is_closed_loop scenario_db2 3%Z 1%Z [3; 1; 2; 3]%Z scenario_db2).
  - exact scenario_db2_acyclic.
  - vm_compute. reflexivity.
Defined.

(** C9. Termination: on every table, cyclic or not, and from every start
    node, the search returns as soon as the recursion depth allowed is one
    more than the number of rows, with the result of [detect_cycle]; [dfs]
    is entered at most once per node, on the visited nodes only. *)
Theorem detect_cycle_terminates (rows : list TaskDependency) (start : Z) (fuel : nat) :
  enough_fuel rows ≤ fuel →
  ∃ b st,
    detect_cycle_run fuel rows start = Some (b, st) ∧
    detect_cycle_fuel fuel rows start = Some (detect_cycle rows start) ∧
    NoDup (calls st) ∧ visited st = list_to_set (calls st) ∧
    length (calls st) ≤ enough_fuel rows.
Proof.
  intros Hfuel.
  destruct (detect_cycle_run_terminates fuel rows start Hfuel) as (b & st & Hrun & Hin).
  exists b, st.
  destruct (detect_cycle_run_spec _ _ _ _ _ Hrun) as (_ & [Hvis Hnd] & _).
  split_and!; [done|by apply detect_cycle_fuel_enough|done|done|].
  rewrite <- (size_list_to_set (C:=gset Z)) by done. rewrite <- Hvis.
  etrans; [by apply subseteq_size|apply size_universe].
Qed.

Lemma detect_cycle_terminates_witness :
  ∃ b st,
    detect_cycle_run 3 [mkDep 1 2; mkDep 2 1] 1 = Some (b, st) ∧
    detect_cycle_fuel 3 [mkDep 1 2; mkDep 2 1] 1
      = Some (detect_cycle [mkDep 1 2; mkDep 2 1] 1) ∧
    NoDup (calls st) ∧ visited st = list_to_set (calls st) ∧
    length (calls st) ≤ enough_fuel [mkDep 1 2; mkDep 2 1].
Proof.
  apply (detect_cycle_terminates [mkDep 1 2; mkDep 2 1] 1 3).
  unfold enough_fuel. simpl. lia.
Defined.

(** C10. The standalone endpoint: [TaskDependencyViewSet]'s [create] commits
    any new pair of existing tasks, with no search and no self-dependency
    check, so it can commit a self-loop and can close a cycle. *)
Theorem standalone_create_breaks_acyclicity :
  (∀ db t d,
      is_Some (tasks db !! t) → is_Some (tasks db !! d) →
      mkDep t d ∉ task_dependencies db →
      TaskDependencyViewSet_create db t d
      = (Http201_created (mkDep t d),
         mkDB (tasks db) (task_dependencies db ++ [mkDep t d]))) ∧
  (∃ db t, acyclic (task_dependencies db) ∧
           edge (task_dependencies (TaskDependencyViewSet_create db t t).2) t t ∧
           ¬ acyclic (task_dependencies (TaskDependencyViewSet_create db t t).2)) ∧
  (∃ db a b, acyclic (task_dependencies db) ∧ a ≠ b ∧
             ¬ acyclic (task_dependencies
                          (TaskDependencyViewSet_create
                             (TaskDependencyViewSet_create db a b).2 b a).2)).
Proof.
  split_and!.
  - intros db t d [st Ht] [sd Hd] Hnew. unfold TaskDependencyViewSet_create.
    rewrite Ht, Hd. by rewrite decide_False.
  - exists scenario_db0, 1%Z. split; [apply acyclic_nil|].
    assert (Hself : edge (task_dependencies (TaskDependencyViewSet_create scenario_db0 1 1).2) 1 1).
    { vm_compute. apply list_elem_of_here. }
    split; [done|]. intros Hac. apply (Hac 1%Z). by apply tc_once.
  - exists scenario_db0, 1%Z, 2%Z. split_and!; [apply acyclic_nil|lia|].
    intros Hac. apply (Hac 1%Z). apply tc_l with 2%Z; [|apply tc_once].
    + vm_compute. apply list_elem_of_here.
    + vm_compute. apply list_elem_of_further, list_elem_of_here.
Qed.

Lemma standalone_create_breaks_acyclicity_witness :
  TaskDependencyViewSet_create scenario_db2 3 1
  = (Http201_created (mkDep 3 1),
     mkDB (tasks scenario_db2) (task_dependencies scenario_db2 ++ [mkDep 3 1])).
Proof.
  apply (proj1 standalone_create_breaks_acyclicity scenario_db2 3%Z 1%Z).
  - vm_compute. eexists. reflexivity.
  - vm_compute. eexists. reflexivity.
  - refine (bool_decide_unpack _ _). vm_compute. exact I.
Defined.

(** ** Status derivation *)

Lemma filter_ne_nil {A : Type} (P : A → Prop) `{!∀ x, Decision (P x)} (l : list A) :
  filter P l ≠ [] ↔ ∃ x, x ∈ l ∧ P x.
Proof.
  split.
  - intros Hne. destruct (filter P l) as [|x k] eqn:Hf; [done|].
    assert (x ∈ filter P l) as Hin by (rewrite Hf; by left).
    apply list_elem_of_filter in Hin as [? ?]. by exists x.
  - intros (x & Hx & HP) Hnil.
    assert (x ∈ filter P l) as Hin by by apply list_elem_of_filter.
    rewrite Hnil in Hin. by apply not_elem_of_nil in Hin.
Qed.

Lemma filter_length_all {A : Type} (P : A → Prop) `{!∀ x, Decision (P x)} (l : list A) :
  Forall P l → length (filter P l) = length l.
Proof.
  induction 1 as [|x l HP _ IH]; [done|].
  rewrite filter_cons_True by done. simpl. by rewrite IH.
Qed.

Lemma status_cases (s : Status) :
  s = STATUS_BLOCKED ∨ s = STATUS_PENDING ∨ s = STATUS_IN_PROGRESS ∨ s = STATUS_COMPLETED.
Proof. destruct s; auto. Qed.

(** Where the first two rows of the table do not apply, every dependency is
    completed. *)
Lemma table_else_all_completed (ds : list Status) :
  STATUS_BLOCKED ∉ ds → ¬ (STATUS_PENDING ∈ ds ∨ STATUS_IN_PROGRESS ∈ ds) →
  Forall (λ s, s = STATUS_COMPLETED) ds.
Proof.
  intros Hb Hp. apply Forall_forall. intros s Hs.
  destruct (status_cases s) as [-> | [-> | [-> | ->]]]; try done; exfalso; auto.
Qed.

Lemma derive_status_table_range (ds : list Status) (current : Status) :
  ds ≠ [] →
  derive_status_table ds current
  ∈ [STATUS_BLOCKED; STATUS_PENDING; STATUS_IN_PROGRESS].
Proof.
  intros Hne. unfold derive_status_table. rewrite decide_False by done.
  repeat case_decide; set_solver.
Qed.

(** The function on a task with dependencies: the status of the table is
    assigned and saved. *)
Lemma auto_update_with_deps (db : DB) (task : Task) :
  deps_query db task ≠ [] →
  auto_update_task_status db task =
    let s := derive_status_table (status <$> deps_query db task) (status task) in
    match tasks db !! id task with
    | None => None
    | Some _ => Some (tt, mkTask (id task) s,
                      mkDB (<[id task := s]> (tasks db)) (task_dependencies db))
    end.
Proof.
  intros Hne. unfold auto_update_task_status.
  set (deps := deps_query db task) in *. set (ds := status <$> deps).
  rewrite decide_False by done.
  assert (Hds : ds ≠ []) by (subst ds; by destruct deps).
  assert (Hblocked : filter (λ d, status d = STATUS_BLOCKED) deps ≠ [] ↔ STATUS_BLOCKED ∈ ds).
  { rewrite filter_ne_nil. subst ds. rewrite list_elem_of_fmap. naive_solver. }
  assert (Hwaiting : filter (λ d, status d ∈ [STATUS_PENDING; STATUS_IN_PROGRESS]) deps ≠ []
                     ↔ STATUS_PENDING ∈ ds ∨ STATUS_IN_PROGRESS ∈ ds).
  { rewrite filter_ne_nil. subst ds. rewrite !list_elem_of_fmap. split.
    - intros (d & Hd & Hs). apply elem_of_cons in Hs as [Hs|Hs]; [left; by exists d|].
      apply list_elem_of_singleton in Hs. right. by exists d.
    - intros [(d & Hs & Hd)|(d & Hs & Hd)]; exists d; (split; [done|]);
        rewrite <- Hs; set_solver. }
  unfold derive_status_table. rewrite (decide_False (P := ds = [])) by done.
  destruct (decide (STATUS_BLOCKED ∈ ds)) as [Hb|Hb].
  { rewrite decide_True by by apply Hblocked.
    unfold save_status. simpl. by destruct (tasks db !! id task). }
  rewrite (decide_False (P := filter _ deps ≠ [])) by (by rewrite Hblocked).
  destruct (decide (STATUS_PENDING ∈ ds ∨ STATUS_IN_PROGRESS ∈ ds)) as [Hp|Hp].
  { rewrite decide_True by by apply Hwaiting.
    unfold save_status. simpl. by destruct (tasks db !! id task). }
  rewrite (decide_False (P := filter _ deps ≠ [])) by (by rewrite Hwaiting).
  rewrite decide_True; [unfold save_status; simpl; by destruct (tasks db !! id task)|].
  apply filter_length_all, Forall_forall. intros d Hd.
  apply (proj1 (Forall_forall _ _) (table_else_all_completed ds Hb Hp)).
  subst ds. apply list_elem_of_fmap. by exists d.
Qed.

Lemma auto_update_without_deps (db : DB) (task : Task) :
  deps_query db task = [] → auto_update_task_status db task = Some (tt, task, db).
Proof. intros Hnil. unfold auto_update_task_status. by rewrite decide_True. Qed.

(** C5. The status table: with no direct dependency the call changes
    nothing; otherwise the task, which must exist to be saved, gets and
    stores the status of the table: blocked if a dependency is blocked, else
    pending if one is pending or in progress, else in progress, the last case
    being the one where every dependency is completed. *)
Theorem auto_update_follows_table (db : DB) (task : Task) :
  let ds := status <$> deps_query db task in
  (ds = [] → auto_update_task_status db task = Some (tt, task, db)) ∧
  (ds ≠ [] → is_Some (tasks db !! id task) →
   auto_update_task_status db task =
     Some (tt, mkTask (id task) (derive_status_table ds (status task)),
           mkDB (<[id task := derive_status_table ds (status task)]> (tasks db))
                (task_dependencies db))) ∧
  (STATUS_BLOCKED ∉ ds → ¬ (STATUS_PENDING ∈ ds ∨ STATUS_IN_PROGRESS ∈ ds) →
   Forall (λ s, s = STATUS_COMPLETED) ds).
Proof.
  intros ds. split_and!.
  - intros Hnil. apply auto_update_without_deps. subst ds. by apply fmap_nil_inv in Hnil.
  - intros Hne [s Hs]. rewrite auto_update_with_deps.
    + simpl. by rewrite Hs.
    + intros Hnil. apply Hne. subst ds. by rewrite Hnil.
  - apply table_else_all_completed.
Qed.

Lemma auto_update_follows_table_witness :
  auto_update_task_status (status_db STATUS_COMPLETED STATUS_COMPLETED STATUS_PENDING)
                          (mkTask 1 STATUS_COMPLETED)
  = Some (tt, mkTask 1 STATUS_PENDING,
          status_db STATUS_PENDING STATUS_COMPLETED STATUS_PENDING).
Proof.
  etrans.
  - apply (proj1 (proj2 (auto_update_follows_table
                           (status_db STATUS_COMPLETED STATUS_COMPLETED STATUS_PENDING)
                           (mkTask 1 STATUS_COMPLETED)))).
    + vm_compute. discriminate.
    + vm_compute. eexists. reflexivity.
  - vm_compute. reflexivity.
Defined.

(** Scenarios B, C and D of the specification: task 1 depends on tasks 2
    and 3. *)
Example scenario_B (s : Status) :
  auto_update_task_status (status_db s STATUS_COMPLETED STATUS_PENDING) (mkTask 1 s)
  = Some (tt, mkTask 1 STATUS_PENDING,
          status_db STATUS_PENDING STATUS_COMPLETED STATUS_PENDING).
Proof. by destruct s. Qed.

Example scenario_C (s : Status) :
  auto_update_task_status (status_db s STATUS_BLOCKED STATUS_COMPLETED) (mkTask 1 s)
  = Some (tt, mkTask 1 STATUS_BLOCKED,
          status_db STATUS_BLOCKED STATUS_BLOCKED STATUS_COMPLETED).
Proof. by destruct s. Qed.

Example scenario_D (s : Status) :
  auto_update_task_status (status_db s STATUS_COMPLETED STATUS_COMPLETED) (mkTask 1 s)
  = Some (tt, mkTask 1 STATUS_IN_PROGRESS,
          status_db STATUS_IN_PROGRESS STATUS_COMPLETED STATUS_COMPLETED).
Proof. by destruct s. Qed.

(** Scenario E: a task without dependencies keeps its status. *)
Example scenario_E (s : Status) :
  auto_update_task_status scenario_db0 (mkTask 1 s) = Some (tt, mkTask 1 s, scenario_db0).
Proof. done. Qed.

(** C6. No derived completion: on a task with at least one direct
    dependency, the status assigned and saved is blocked, pending or in
    progress, never completed. *)
Theorem auto_update_never_completes (db : DB) (task : Task)
    (ret : unit) (task' : Task) (db' : DB) :
  deps_query db task ≠ [] →
  auto_update_task_status db task = Some (ret, task', db') →
  status task' ∈ [STATUS_BLOCKED; STATUS_PENDING; STATUS_IN_PROGRESS] ∧
  status task' ≠ STATUS_COMPLETED ∧
  tasks db' !! id task = Some (status task').
Proof.
  intros Hne Hrun. rewrite auto_update_with_deps in Hrun by done. simpl in Hrun.
  destruct (tasks db !! id task); [|done]. simplify_eq. simpl.
  assert (Hr := derive_status_table_range (status <$> deps_query db task) (status task)
                  ltac:(by destruct (deps_query db task))).
  split_and!; [done| |by rewrite lookup_insert_eq].
  intros Heq. rewrite Heq in Hr. set_solver.
Qed.

Lemma auto_update_never_completes_witness :
  status (mkTask 1 STATUS_IN_PROGRESS)
    ∈ [STATUS_BLOCKED; STATUS_PENDING; STATUS_IN_PROGRESS] ∧
  status (mkTask 1 STATUS_IN_PROGRESS) ≠ STATUS_COMPLETED ∧
  tasks (status_db STATUS_IN_PROGRESS STATUS_COMPLETED STATUS_COMPLETED) !! 1%Z
  = Some (status (mkTask 1 STATUS_IN_PROGRESS)).
Proof.
  apply (auto_update_never_completes
           (status_db STATUS_COMPLETED STATUS_COMPLETED STATUS_COMPLETED)
           (mkTask 1 STATUS_COMPLETED) tt).
  - vm_compute. discriminate.
  - vm_compute. reflexivity.
Defined.

(** C7, as the specification states it, fails: the value returned cannot
    carry the new status and a changed flag, since a call that changes the
    status and one that does not return the same value. *)
Lemma auto_update_returns_no_signal :
  ¬ ∃ signal : unit → Status * bool,
      ∀ db task ret task' db',
        auto_update_task_status db task = Some (ret, task', db') →
        signal ret = (status task', bool_decide (status task' ≠ status task)).
Proof.
  intros [signal Hsignal].
  pose proof (Hsignal (status_db STATUS_PENDING STATUS_BLOCKED STATUS_COMPLETED)
                (mkTask 1 STATUS_PENDING) tt _ _ eq_refl) as H1.
  pose proof (Hsignal (status_db STATUS_BLOCKED STATUS_BLOCKED STATUS_COMPLETED)
                (mkTask 1 STATUS_BLOCKED) tt _ _ eq_refl) as H2.
  vm_compute in H1, H2. congruence.
Qed.

(** C7, amended. The call returns nothing ([None]); its effect is on the
    task object and its row: unchanged when the task has no direct
    dependency, otherwise the status is assigned in place and saved, and a
    transition shows only in the comparison of the status before and after. *)
Theorem auto_update_returns_none (db : DB) (task : Task)
    (ret : unit) (task' : Task) (db' : DB) :
  auto_update_task_status db task = Some (ret, task', db') →
  ret = tt ∧ id task' = id task ∧
  (deps_query db task = [] → task' = task ∧ db' = db) ∧
  (deps_query db task ≠ [] →
   status task' = derive_status_table (status <$> deps_query db task) (status task) ∧
   tasks db' = <[id task := status task']> (tasks db) ∧
   task_dependencies db' = task_dependencies db).
Proof.
  intros Hrun. destruct (decide (deps_query db task = [])) as [Hnil|Hne].
  - rewrite auto_update_without_deps in Hrun by done. simplify_eq.
    split_and!; try done; by destruct ret.
  - rewrite auto_update_with_deps in Hrun by done. simpl in Hrun.
    destruct (tasks db !! id task); [|done]. simplify_eq. simpl.
    split_and!; try done; by destruct ret.
Qed.

Lemma auto_update_returns_none_witness :
  tt = tt ∧ id (mkTask 1 STATUS_BLOCKED) = id (mkTask 1 STATUS_PENDING) ∧
  (deps_query (status_db STATUS_PENDING STATUS_BLOCKED STATUS_COMPLETED)
              (mkTask 1 STATUS_PENDING) = [] →
   mkTask 1 STATUS_BLOCKED = mkTask 1 STATUS_PENDING ∧
   status_db STATUS_BLOCKED STATUS_BLOCKED STATUS_COMPLETED
   = status_db STATUS_PENDING STATUS_BLOCKED STATUS_COMPLETED) ∧
  (deps_query (status_db STATUS_PENDING STATUS_BLOCKED STATUS_COMPLETED)
              (mkTask 1 STATUS_PENDING) ≠ [] →
   status (mkTask 1 STATUS_BLOCKED)
   = derive_status_table
       (status <$> deps_query (status_db STATUS_PENDING STATUS_BLOCKED STATUS_COMPLETED)
                              (mkTask 1 STATUS_PENDING))
       (status (mkTask 1 STATUS_PENDING)) ∧
   tasks (status_db STATUS_BLOCKED STATUS_BLOCKED STATUS_COMPLETED)
   = <[id (mkTask 1 STATUS_PENDING) := status (mkTask 1 STATUS_BLOCKED)]>
       (tasks (status_db STATUS_PENDING STATUS_BLOCKED STATUS_COMPLETED)) ∧
   task_dependencies (status_db STATUS_BLOCKED STATUS_BLOCKED STATUS_COMPLETED)
   = task_dependencies (status_db STATUS_PENDING STATUS_BLOCKED STATUS_COMPLETED)).
Proof.
  apply (auto_update_returns_none
           (status_db STATUS_PENDING STATUS_BLOCKED STATUS_COMPLETED)
           (mkTask 1 STATUS_PENDING) tt (mkTask 1 STATUS_BLOCKED)
           (status_db STATUS_BLOCKED STATUS_BLOCKED STATUS_COMPLETED)).
  vm_compute. reflexivity.
Defined.

(** * Further properties of the code *)

(** ** [_build_graph] and [detect_cycle] *)

Lemma build_graph_lookup (rows : list TaskDependency) (x : Z) :
  _build_graph rows !! x =
    match filter (λ dep, task_id dep = x) rows with
    | [] => None
    | deps => Some (depends_on_id <$> deps)
    end.
Proof.
  unfold _build_graph.
  induction rows as [|dep rows IH] using rev_ind; [done|].
  rewrite foldl_app, filter_app. simpl.
  destruct (decide (task_id dep = x)) as [Heq|Hne].
  - rewrite filter_cons_True by done. rewrite filter_nil. subst x.
    rewrite lookup_insert_eq. rewrite IH.
    destruct (filter _ rows) as [|d ds]; simpl; [done|].
    by rewrite fmap_app.
  - rewrite filter_cons_False by done. rewrite filter_nil, app_nil_r.
    by rewrite lookup_insert_ne.
Qed.

(** X1. The graph has a key exactly for the tasks that have a row, and the
    list under a key is never empty: it holds the targets of the task's
    rows, in row order. *)
Theorem build_graph_adjacency (rows : list TaskDependency) (x : Z) :
  (_build_graph rows !! x = None ↔ ∀ dep, dep ∈ rows → task_id dep ≠ x) ∧
  (∀ l, _build_graph rows !! x = Some l →
        l ≠ [] ∧ l = depends_on_id <$> filter (λ dep, task_id dep = x) rows).
Proof.
  rewrite build_graph_lookup. split.
  - destruct (filter _ rows) as [|d ds] eqn:Hf.
    + split; [|done]. intros _ dep Hin Heq.
      assert (dep ∈ filter (λ dep, task_id dep = x) rows) as Hd
        by by apply list_elem_of_filter.
      rewrite Hf in Hd. by apply not_elem_of_nil in Hd.
    + split; [done|]. intros Hall. exfalso.
      assert (d ∈ filter (λ dep, task_id dep = x) rows) as Hd by (rewrite Hf; by left).
      apply list_elem_of_filter in Hd as [Hx Hin]. by apply (Hall d).
  - intros l. destruct (filter _ rows) as [|d ds]; [done|].
    intros [= <-]. by split.
Qed.

Lemma build_graph_adjacency_witness :
  [2; 3]%Z ≠ [] ∧
  [2; 3]%Z = depends_on_id <$> filter (λ dep, task_id dep = 1%Z)
                                      [mkDep 1 2; mkDep 2 3; mkDep 1 3].
Proof.
  apply (proj2 (build_graph_adjacency [mkDep 1 2; mkDep 2 3; mkDep 1 3] 1)).
  vm_compute. reflexivity.
Defined.

Lemma chain_app_inv_l (R : Z → Z → Prop) (l1 l2 : list Z) :
  chain R (l1 ++ l2) → chain R l1.
Proof.
  induction l1 as [|a l1 IH]; simpl; [constructor|].
  intros Hc. destruct l1 as [|b l1]; [constructor|].
  simpl in *. inversion Hc; subst. constructor; [done|]. by apply IH.
Qed.

Lemma chain_rtc (R : Z → Z → Prop) (x y : Z) (l : list Z) :
  chain R (x :: l ++ [y]) → rtc R x y.
Proof. intros Hc. by apply tc_rtc, (chain_tc R x y l). Qed.

Lemma rtc_arc_edge (rows : list TaskDependency) (x y : Z) :
  rtc (arc (_build_graph rows)) x y ↔ rtc (edge rows) x y.
Proof.
  split; apply rtc_subrel; intros a b; unfold arc; by rewrite elem_of_graph_get.
Qed.

(** A search that finds nothing: no cycle can be reached from the start. *)
Lemma detect_cycle_false_reach (rows : list TaskDependency) (start : Z) (p : list Z) :
  detect_cycle rows start = (false, p) → ¬ reaches_cycle rows start.
Proof.
  intros Hdc (x & Hreach & Hcyc).
  pose proof (detect_cycle_fuel_enough (enough_fuel rows) rows start (le_n _)) as Hf.
  rewrite Hdc in Hf. unfold detect_cycle_fuel in Hf.
  destruct (detect_cycle_run _ _ _) as [[b st']|] eqn:Hrun; [|done].
  simplify_eq. apply detect_cycle_run_spec in Hrun as (Hin & _ & Hinv & Hst & _).
  apply (inv_acyclic _ _ Hinv x); [|by apply tc_arc_edge].
  apply (black_closed_rtc (_build_graph rows) st' start x); [done| |by apply rtc_arc_edge].
  unfold black. rewrite Hst. set_solver.
Qed.

(** A search that finds a cycle: one can be reached from the start. *)
Lemma detect_cycle_true_reach (rows : list TaskDependency) (start : Z) (p : list Z) :
  detect_cycle rows start = (true, p) → reaches_cycle rows start.
Proof.
  intros Hdc. apply detect_cycle_true in Hdc as (q & x & -> & Hnd & Hch & Hx).
  apply list_elem_of_split in Hx as (l1 & l2 & Hsplit).
  change (start :: q ++ [x]) with ((start :: q) ++ [x]) in Hch.
  rewrite Hsplit, <- app_assoc in Hch. simpl in Hch. exists x. split.
  - destruct l1 as [|a l1]; simpl in Hsplit; [by simplify_eq|].
    injection Hsplit as <- _. apply (chain_rtc _ _ _ l1).
    apply (chain_app_inv_l _ _ (l2 ++ [x])).
    simpl. by rewrite <- app_assoc.
  - apply (chain_tc _ _ _ l2). by apply chain_app_inv_r in Hch.
Qed.

Lemma detect_cycle_verdict_iff (rows : list TaskDependency) (start : Z) :
  (detect_cycle rows start).1 = true ↔ reaches_cycle rows start.
Proof.
  destruct (detect_cycle rows start) as [[] p] eqn:Hdc; simpl.
  - split; [|done]. intros _. by eapply detect_cycle_true_reach.
  - split; [done|]. intros Hr. by apply detect_cycle_false_reach in Hdc.
Qed.

(** X2. The verdict of [detect_cycle] is exact: it reports a cycle if and
    only if some task reachable from the start task lies on a cycle of the
    table, and without a cycle the path it returns is empty. *)
Theorem detect_cycle_verdict (rows : list TaskDependency) (start : Z) :
  ((detect_cycle rows start).1 = true ↔ reaches_cycle rows start) ∧
  ((detect_cycle rows start).1 = false → (detect_cycle rows start).2 = []).
Proof.
  split; [apply detect_cycle_verdict_iff|].
  destruct (detect_cycle rows start) as [[] p] eqn:Hdc; simpl; [done|].
  intros _. by apply detect_cycle_false in Hdc as [-> _].
Qed.

Lemma detect_cycle_verdict_witness :
  (detect_cycle [mkDep 1 2; mkDep 2 3; mkDep 4 4] 1).2 = [].
Proof.
  apply (proj2 (detect_cycle_verdict [mkDep 1 2; mkDep 2 3; mkDep 4 4] 1)).
  vm_compute. reflexivity.
Defined.

Lemma chain_targets (rows : list TaskDependency) (a : Z) (l : list Z) :
  chain (edge rows) (a :: l) → ∀ y, y ∈ l → y ∈ depends_on_id <$> rows.
Proof.
  revert a. induction l as [|b l IH]; intros a Hc y Hy.
  - by apply not_elem_of_nil in Hy.
  - inversion Hc as [| |? ? ? Hab Hrest]; subst.
    apply elem_of_cons in Hy as [->|Hy]; [|by eapply IH].
    apply list_elem_of_fmap. by exists (mkDep a b).
Qed.

(** X3. A reported path is a real walk: it starts at the start task,
    follows rows of the table, repeats no task before its last entry, ends
    on a task it already holds, and has at most two entries more than the
    table has rows. *)
Theorem detect_cycle_path_sound (rows : list TaskDependency) (start : Z) (p : list Z) :
  detect_cycle rows start = (true, p) →
  ∃ q x, p = start :: q ++ [x] ∧ NoDup (start :: q) ∧ x ∈ start :: q ∧
         chain (edge rows) p ∧ length p ≤ length rows + 2.
Proof.
  intros Hdc. apply detect_cycle_true in Hdc as (q & x & -> & Hnd & Hch & Hx).
  exists q, x. split_and!; try done.
  assert (length q ≤ length rows) as Hlen.
  { rewrite <- (length_fmap depends_on_id rows). apply submseteq_length.
    apply NoDup_submseteq; [by apply NoDup_cons in Hnd as [_ ?]|].
    intros y Hy. apply (chain_targets rows start (q ++ [x])); [done|set_solver]. }
  simpl. rewrite length_app. simpl. lia.
Qed.

Lemma detect_cycle_path_sound_witness :
  ∃ q x, [1; 2; 3; 2]%Z = 1%Z :: q ++ [x] ∧ NoDup (1%Z :: q) ∧ x ∈ 1%Z :: q ∧
         chain (edge [mkDep 1 2; mkDep 2 3; mkDep 3 2]) [1; 2; 3; 2]%Z ∧
         length [1; 2; 3; 2]%Z ≤ length [mkDep 1 2; mkDep 2 3; mkDep 3 2] + 2.
Proof.
  apply (detect_cycle_path_sound [mkDep 1 2; mkDep 2 3; mkDep 3 2] 1 [1; 2; 3; 2]%Z).
  vm_compute. reflexivity.
Defined.

(** X4. A start task without rows of its own (no key in the graph) is
    answered at once: no cycle and an empty path, whatever the rest of the
    table holds. *)
Theorem detect_cycle_no_outgoing (rows : list TaskDependency) (start : Z) :
  (∀ dep, dep ∈ rows → task_id dep ≠ start) →
  detect_cycle rows start = (false, []).
Proof.
  intros Hnone.
  assert (Hout : ∀ y, ¬ edge rows start y) by (intros y Hy; by apply (Hnone _ Hy)).
  destruct (detect_cycle rows start) as [[] p] eqn:Hdc.
  - exfalso. apply detect_cycle_true_reach in Hdc as (x & Hreach & Hcyc).
    apply rtc_inv in Hreach as [<-|(y & Hy & _)]; [|by apply (Hout y)].
    inversion Hcyc as [? ? Hy|? y ? Hy _]; subst; by apply (Hout _ Hy).
  - by apply detect_cycle_false in Hdc as [-> _].
Qed.

Lemma detect_cycle_no_outgoing_witness :
  detect_cycle [mkDep 1 2; mkDep 2 1] 3 = (false, []).
Proof.
  apply (detect_cycle_no_outgoing [mkDep 1 2; mkDep 2 1] 3).
  apply Forall_forall. repeat constructor; simpl; lia.
Defined.

(** X5. The verdict depends on the set of rows only: reordering or
    repeating rows changes at most the path reported. *)
Theorem detect_cycle_verdict_rows (rows rows' : list TaskDependency) (start : Z) :
  (∀ dep, dep ∈ rows ↔ dep ∈ rows') →
  (detect_cycle rows start).1 = (detect_cycle rows' start).1.
Proof.
  intros Hsame.
  assert (Hiff : reaches_cycle rows start ↔ reaches_cycle rows' start).
  { unfold reaches_cycle. split; intros (x & Hr & Hc); exists x;
      (split; [eapply rtc_subrel; [|done]|eapply tc_impl; [|done]]);
      intros a b; unfold edge; by rewrite Hsame. }
  rewrite <- !detect_cycle_verdict_iff in Hiff.
  destruct (detect_cycle rows start).1, (detect_cycle rows' start).1; try done.
  - symmetry. by apply Hiff.
  - by apply Hiff.
Qed.

Lemma detect_cycle_verdict_rows_witness :
  (detect_cycle [mkDep 1 2; mkDep 2 3; mkDep 2 1] 1).1
  = (detect_cycle [mkDep 2 1; mkDep 2 3; mkDep 1 2; mkDep 2 1] 1).1.
Proof.
  apply (detect_cycle_verdict_rows [mkDep 1 2; mkDep 2 3; mkDep 2 1]
           [mkDep 2 1; mkDep 2 3; mkDep 1 2; mkDep 2 1] 1).
  intros dep. rewrite !elem_of_cons, !elem_of_nil. tauto.
Defined.

(** X6. A table is acyclic exactly when the search finds nothing from any
    start task. *)
Theorem detect_cycle_acyclic_table (rows : list TaskDependency) :
  acyclic rows ↔ ∀ start, detect_cycle rows start = (false, []).
Proof.
  split.
  - intros Hac start. destruct (detect_cycle rows start) as [[] p] eqn:Hdc.
    + apply detect_cycle_true_reach in Hdc as (x & _ & Hcyc). by destruct (Hac x).
    + by apply detect_cycle_false in Hdc as [-> _].
  - intros Hall n Hn. eapply detect_cycle_false_reach; [apply (Hall n)|].
    by exists n.
Qed.

(** ** The endpoint [dependencies], continued *)

Lemma rtc_removed_edge (R R' : Z → Z → Prop) (a b x : Z) :
  (∀ u v, R' u v → R u v ∨ (u = a ∧ v = b)) →
  rtc R' x a → rtc R x a.
Proof.
  intros HR Hr. revert x Hr. apply rtc_ind_l; [done|].
  intros x y Hxy _ IH. destruct (HR _ _ Hxy) as [?|[-> _]]; [by eapply rtc_l|done].
Qed.

Lemma edge_get_or_create (db : DB) (a b u v : Z) :
  edge (task_dependencies (get_or_create db (mkDep a b))) u v ↔
  edge (task_dependencies db) u v ∨ (u = a ∧ v = b).
Proof.
  unfold edge. split.
  - intros Huv. apply get_or_create_inv in Huv as [?|?]; [by left|right; by simplify_eq].
  - intros [Huv|[-> ->]]; [|apply get_or_create_elem].
    unfold get_or_create. case_decide; simpl; set_solver.
Qed.

(** On an acyclic table, staging the row [a → b] makes a cycle reachable
    from [a] exactly when [b] already reaches [a]. *)
Lemma staged_reaches_cycle_iff (db : DB) (a b : Z) :
  acyclic (task_dependencies db) →
  reaches_cycle (task_dependencies (get_or_create db (mkDep a b))) a ↔
  rtc (edge (task_dependencies db)) b a.
Proof.
  intros Hac. set (rows' := task_dependencies (get_or_create db (mkDep a b))).
  assert (Hsub : ∀ u v, edge rows' u v → edge (task_dependencies db) u v ∨ (u = a ∧ v = b))
    by (intros u v; apply edge_get_or_create).
  split.
  - intros (x & _ & Hcyc).
    destruct (tc_added_edge _ _ a b x x Hsub Hcyc) as [Hold|[Hxa Hbx]].
    + by destruct (Hac x).
    + apply (rtc_removed_edge _ (edge rows') a b); [done|by etrans].
  - intros Hba. exists a. split; [done|].
    eapply tc_rtc_r; [apply tc_once, edge_get_or_create; by right|].
    eapply rtc_subrel; [|done]. intros u v Huv. apply edge_get_or_create. by left.
Qed.

(** X7. On an acyclic table, a request between two distinct existing tasks
    is answered "Circular dependency detected", with the database unchanged,
    exactly when [depends_on] already reaches [task] along the rows;
    otherwise it is answered 201 and the row is in the table. *)
Theorem propose_edge_rejects_iff_reaches (db : DB) (a b : Z) :
  acyclic (task_dependencies db) →
  is_Some (tasks db !! a) → is_Some (tasks db !! b) → a ≠ b →
  ((∃ p, propose_edge db a b = (Http400_circular p, db)) ↔
   rtc (edge (task_dependencies db)) b a) ∧
  (propose_edge db a b = (Http201_created (mkDep a b), get_or_create db (mkDep a b)) ↔
   ¬ rtc (edge (task_dependencies db)) b a).
Proof.
  intros Hac Ha Hb Hne. rewrite propose_edge_unfold by done. simpl.
  rewrite <- (staged_reaches_cycle_iff db a b Hac), <- detect_cycle_verdict_iff.
  destruct (detect_cycle _ a) as [[] p]; simpl; split; split; try done.
  - by eexists.
  - by intros [p' ?].
Qed.

Lemma propose_edge_rejects_iff_reaches_witness :
  ((∃ p, propose_edge scenario_db2 3 1 = (Http400_circular p, scenario_db2)) ↔
   rtc (edge (task_dependencies scenario_db2)) 1%Z 3%Z) ∧
  (propose_edge scenario_db2 3 1
   = (Http201_created (mkDep 3 1), get_or_create scenario_db2 (mkDep 3 1)) ↔
   ¬ rtc (edge (task_dependencies scenario_db2)) 1%Z 3%Z).
Proof.
  apply (propose_edge_rejects_iff_reaches scenario_db2 3 1).
  - exact scenario_db2_acyclic.
  - vm_compute. eexists. reflexivity.
  - vm_compute. eexists. reflexivity.
  - lia.
Defined.

(** X8. A task from which a cycle already in the table can be reached gets
    no new dependency: every request for it between distinct existing tasks
    is answered "Circular dependency detected", whether or not the requested
    row would close a cycle. *)
Theorem propose_edge_rejects_reachable_cycle (db : DB) (a b : Z) :
  is_Some (tasks db !! a) → is_Some (tasks db !! b) → a ≠ b →
  reaches_cycle (task_dependencies db) a →
  ∃ p, propose_edge db a b = (Http400_circular p, db).
Proof.
  intros Ha Hb Hne (x & Hreach & Hcyc). rewrite propose_edge_unfold by done. simpl.
  assert (Hr : reaches_cycle (task_dependencies (get_or_create db (mkDep a b))) a).
  { exists x. split; [eapply rtc_subrel; [|done]|eapply tc_impl; [|done]];
      intros u v Huv; apply edge_get_or_create; by left. }
  apply detect_cycle_verdict_iff in Hr.
  destruct (detect_cycle _ a) as [[] p]; [by eexists|done].
Qed.

Lemma propose_edge_rejects_reachable_cycle_witness :
  ∃ p, propose_edge (mkDB scenario_tasks [mkDep 1 2; mkDep 2 2]) 1 3
       = (Http400_circular p, mkDB scenario_tasks [mkDep 1 2; mkDep 2 2]).
Proof.
  apply (propose_edge_rejects_reachable_cycle
           (mkDB scenario_tasks [mkDep 1 2; mkDep 2 2]) 1 3).
  - vm_compute. eexists. reflexivity.
  - vm_compute. eexists. reflexivity.
  - lia.
  - exists 2%Z. split.
    + apply rtc_once. unfold edge. simpl. apply list_elem_of_here.
    + apply tc_once. unfold edge. simpl. apply list_elem_of_further, list_elem_of_here.
Defined.

(** X9. Whatever the request, [dependencies] leaves the task table alone
    and removes no row; any answer other than 201 leaves the whole database
    unchanged, and a 201 for [row] means that [row] is the requested pair of
    distinct tasks, is in the table afterwards, and is the only row added, at
    the end, if it was not there. *)
Theorem dependencies_only_appends (db : DB) (pk : Z) (body : option Z)
    (resp : Response) (db' : DB) :
  dependencies db pk body = (resp, db') →
  tasks db' = tasks db ∧
  ((∀ row, resp ≠ Http201_created row) → db' = db) ∧
  (∀ row, resp = Http201_created row →
          body = Some (depends_on_id row) ∧ task_id row = pk ∧
          depends_on_id row ≠ pk ∧ row ∈ task_dependencies db' ∧
          ((db' = db ∧ row ∈ task_dependencies db) ∨
           (task_dependencies db' = task_dependencies db ++ [row] ∧
            row ∉ task_dependencies db))).
Proof.
  unfold dependencies, atomic.
  destruct (tasks db !! pk) eqn:Hpk; [|intros [= <- <-]; by split_and!].
  destruct body as [d|]; [|intros [= <- <-]; by split_and!].
  destruct (decide (d = pk)) as [|Hne]; [intros [= <- <-]; by split_and!|].
  destruct (tasks db !! d) eqn:Hd; [|intros [= <- <-]; by split_and!].
  destruct (detect_cycle _ pk) as [[] p]; intros [= <- <-]; [by split_and!|].
  split_and!.
  - apply get_or_create_tasks.
  - intros Hno. by destruct (Hno (mkDep pk d)).
  - intros row [= <-]. simpl. split_and!; try done; [apply get_or_create_elem|].
    unfold get_or_create. case_decide; [by left|by right].
Qed.

Lemma dependencies_only_appends_witness :
  tasks (mkDB scenario_tasks [mkDep 1 2; mkDep 2 3; mkDep 1 3]) = tasks scenario_db2 ∧
  ((∀ row, Http201_created (mkDep 1 3) ≠ Http201_created row) →
   mkDB scenario_tasks [mkDep 1 2; mkDep 2 3; mkDep 1 3] = scenario_db2) ∧
  (∀ row, Http201_created (mkDep 1 3) = Http201_created row →
          Some 3%Z = Some (depends_on_id row) ∧ task_id row = 1%Z ∧
          depends_on_id row ≠ 1%Z ∧
          row ∈ task_dependencies (mkDB scenario_tasks [mkDep 1 2; mkDep 2 3; mkDep 1 3]) ∧
          ((mkDB scenario_tasks [mkDep 1 2; mkDep 2 3; mkDep 1 3] = scenario_db2 ∧
            row ∈ task_dependencies scenario_db2) ∨
           (task_dependencies (mkDB scenario_tasks [mkDep 1 2; mkDep 2 3; mkDep 1 3])
            = task_dependencies scenario_db2 ++ [row] ∧
            row ∉ task_dependencies scenario_db2))).
Proof.
  apply (dependencies_only_appends scenario_db2 1 (Some 3%Z)).
  vm_compute. reflexivity.
Defined.

Lemma well_formed_append (db : DB) (row : TaskDependency) :
  well_formed db → row ∉ task_dependencies db →
  is_Some (tasks db !! task_id row) → is_Some (tasks db !! depends_on_id row) →
  well_formed (mkDB (tasks db) (task_dependencies db ++ [row])).
Proof.
  intros [Hnd Hfk] Hnew Ht Hd. split; simpl.
  - apply NoDup_app. split_and!; [done| |apply NoDup_singleton].
    intros r Hr ->%list_elem_of_singleton. done.
  - intros dep [Hin| ->%list_elem_of_singleton]%elem_of_app; [by apply Hfk|done].
Qed.

(** X10. [dependencies] keeps the schema: if every pair occurs once and
    every row joins two existing tasks, the same holds after any request; and
    if no row joins a task to itself, none does afterwards. *)
Theorem dependencies_preserves_well_formed (db : DB) (pk : Z) (body : option Z) :
  (well_formed db → well_formed (dependencies db pk body).2) ∧
  ((∀ dep, dep ∈ task_dependencies db → task_id dep ≠ depends_on_id dep) →
   ∀ dep, dep ∈ task_dependencies (dependencies db pk body).2 →
          task_id dep ≠ depends_on_id dep).
Proof.
  unfold dependencies, atomic.
  destruct (tasks db !! pk) eqn:Hpk; [|done].
  destruct body as [d|]; [|done].
  destruct (decide (d = pk)) as [|Hne]; [done|].
  destruct (tasks db !! d) eqn:Hd; [|done].
  destruct (detect_cycle _ pk) as [[] p]; [done|]. simpl.
  unfold get_or_create. case_decide; [done|]. split.
  - intros Hwf. apply well_formed_append; simpl; by eauto.
  - intros Hno dep [Hin| ->%list_elem_of_singleton]%elem_of_app; [by apply Hno|done].
Qed.

Lemma dependencies_preserves_well_formed_witness :
  (well_formed scenario_db2 → well_formed (dependencies scenario_db2 1 (Some 3%Z)).2) ∧
  ((∀ dep, dep ∈ task_dependencies scenario_db2 → task_id dep ≠ depends_on_id dep) →
   ∀ dep, dep ∈ task_dependencies (dependencies scenario_db2 1 (Some 3%Z)).2 →
          task_id dep ≠ depends_on_id dep).
Proof. apply (dependencies_preserves_well_formed scenario_db2 1 (Some 3%Z)). Defined.

(** ** [TaskDependencyViewSet] *)

(** X11. The standalone [create] keeps the schema too, and refuses a pair
    that is already in the table, leaving the database unchanged. *)
Theorem create_preserves_well_formed (db : DB) (t d : Z) :
  (well_formed db → well_formed (TaskDependencyViewSet_create db t d).2) ∧
  (mkDep t d ∈ task_dependencies db →
   TaskDependencyViewSet_create db t d = (Http400_invalid, db)).
Proof.
  unfold TaskDependencyViewSet_create.
  destruct (tasks db !! t) eqn:Ht, (tasks db !! d) eqn:Hd; try done.
  case_decide; [done|]. split; [|done].
  intros Hwf. apply well_formed_append; simpl; by eauto.
Qed.

Lemma create_preserves_well_formed_witness :
  (well_formed scenario_db2 → well_formed (TaskDependencyViewSet_create scenario_db2 1 2).2) ∧
  (mkDep 1 2 ∈ task_dependencies scenario_db2 →
   TaskDependencyViewSet_create scenario_db2 1 2 = (Http400_invalid, scenario_db2)).
Proof. apply (create_preserves_well_formed scenario_db2 1 2). Defined.

(** X12. The two ways to create a row agree on what [dependencies]
    accepts: if the pair is new, [create] gives the same answer and the same
    database; if the pair is already there, [dependencies] answers 201
    without a change where [create] answers 400. *)
Theorem accepted_proposal_agrees_with_create (db : DB) (a b : Z)
    (row : TaskDependency) (db' : DB) :
  propose_edge db a b = (Http201_created row, db') →
  (mkDep a b ∉ task_dependencies db →
   TaskDependencyViewSet_create db a b = (Http201_created row, db')) ∧
  (mkDep a b ∈ task_dependencies db →
   db' = db ∧ TaskDependencyViewSet_create db a b = (Http400_invalid, db)).
Proof.
  intros Hcall.
  apply propose_edge_created in Hcall as ([sa Ha] & [sb Hb] & Hne & -> & -> & _).
  unfold TaskDependencyViewSet_create, get_or_create. rewrite Ha, Hb. simpl.
  split; intros Hrow.
  - by rewrite !decide_False.
  - by rewrite !decide_True.
Qed.

Lemma accepted_proposal_agrees_with_create_witness :
  (mkDep 1 3 ∉ task_dependencies scenario_db2 →
   TaskDependencyViewSet_create scenario_db2 1 3
   = (Http201_created (mkDep 1 3), mkDB scenario_tasks [mkDep 1 2; mkDep 2 3; mkDep 1 3])) ∧
  (mkDep 1 3 ∈ task_dependencies scenario_db2 →
   mkDB scenario_tasks [mkDep 1 2; mkDep 2 3; mkDep 1 3] = scenario_db2 ∧
   TaskDependencyViewSet_create scenario_db2 1 3 = (Http400_invalid, scenario_db2)).
Proof.
  apply (accepted_proposal_agrees_with_create scenario_db2 1 3).
  vm_compute. reflexivity.
Defined.

(** ** The serializer's lists *)

Lemma elem_of_get_depends_on (db : DB) (t : Task) (d : Z) :
  d ∈ get_depends_on db t ↔ edge (task_dependencies db) (id t) d.
Proof.
  unfold get_depends_on, edge. rewrite list_elem_of_fmap. split.
  - intros ([a b] & -> & [Ha Hin]%list_elem_of_filter). simpl in *. by subst.
  - intros Hin. exists (mkDep (id t) d). split; [done|]. by apply list_elem_of_filter.
Qed.

Lemma elem_of_get_dependents (db : DB) (d : Task) (t : Z) :
  t ∈ get_dependents db d ↔ edge (task_dependencies db) t (id d).
Proof.
  unfold get_dependents, edge. rewrite list_elem_of_fmap. split.
  - intros ([a b] & -> & [Hb Hin]%list_elem_of_filter). simpl in *. by subst.
  - intros Hin. exists (mkDep t (id d)). split; [done|]. by apply list_elem_of_filter.
Qed.


(** X14. With each pair stored once ([unique_together]), neither
    serializer list repeats a task. *)
Theorem serializer_lists_nodup (db : DB) (obj : Task) :
  NoDup (task_dependencies db) →
  NoDup (get_depends_on db obj) ∧ NoDup (get_dependents db obj).
Proof.
  intros Hnd. split.
  - apply NoDup_fmap_2_strong; [|by apply NoDup_filter].
    intros [a b] [a' b'] [Ha _]%list_elem_of_filter [Ha' _]%list_elem_of_filter Heq.
    simpl in *. by subst.
  - apply NoDup_fmap_2_strong; [|by apply NoDup_filter].
    intros [a b] [a' b'] [Hb _]%list_elem_of_filter [Hb' _]%list_elem_of_filter Heq.
    simpl in *. by subst.
Qed.

Lemma serializer_lists_nodup_witness :
  NoDup (get_depends_on (status_db STATUS_PENDING STATUS_PENDING STATUS_PENDING)
                        (mkTask 1 STATUS_PENDING)) ∧
  NoDup (get_dependents (status_db STATUS_PENDING STATUS_PENDING STATUS_PENDING)
                        (mkTask 1 STATUS_PENDING)).
Proof.
  apply (serializer_lists_nodup (status_db STATUS_PENDING STATUS_PENDING STATUS_PENDING)
           (mkTask 1 STATUS_PENDING)).
  simpl. repeat constructor; rewrite ?elem_of_cons, ?elem_of_nil; intros Hin;
    repeat destruct Hin as [Hin|Hin]; done.
Defined.

(** X15. After a 201 from [dependencies] the serializer shows the new
    dependency on both sides, and the [depends_on] of every other task and
    the [dependents] of every other task are as before. *)
Theorem accepted_proposal_serialized (db : DB) (a b : Z) (row : TaskDependency) (db' : DB) :
  propose_edge db a b = (Http201_created row, db') →
  (∀ t, id t = a → b ∈ get_depends_on db' t) ∧
  (∀ d, id d = b → a ∈ get_dependents db' d) ∧
  (∀ t, id t ≠ a → get_depends_on db' t = get_depends_on db t) ∧
  (∀ d, id d ≠ b → get_dependents db' d = get_dependents db d).
Proof.
  intros Hcall. apply propose_edge_created in Hcall as (_ & _ & _ & -> & -> & _).
  split_and!.
  - intros t <-. apply elem_of_get_depends_on, get_or_create_elem.
  - intros d <-. apply elem_of_get_dependents, get_or_create_elem.
  - intros t Ht. unfold get_depends_on, get_or_create. case_decide; [done|]. simpl.
    rewrite filter_app, filter_cons_False by (simpl; congruence).
    by rewrite filter_nil, app_nil_r.
  - intros d Hd. unfold get_dependents, get_or_create. case_decide; [done|]. simpl.
    rewrite filter_app, filter_cons_False by (simpl; congruence).
    by rewrite filter_nil, app_nil_r.
Qed.

Lemma accepted_proposal_serialized_witness :
  (∀ t, id t = 1%Z →
        3%Z ∈ get_depends_on (mkDB scenario_tasks [mkDep 1 2; mkDep 2 3; mkDep 1 3]) t) ∧
  (∀ d, id d = 3%Z →
        1%Z ∈ get_dependents (mkDB scenario_tasks [mkDep 1 2; mkDep 2 3; mkDep 1 3]) d) ∧
  (∀ t, id t ≠ 1%Z →
        get_depends_on (mkDB scenario_tasks [mkDep 1 2; mkDep 2 3; mkDep 1 3]) t
        = get_depends_on scenario_db2 t) ∧
  (∀ d, id d ≠ 3%Z →
        get_dependents (mkDB scenario_tasks [mkDep 1 2; mkDep 2 3; mkDep 1 3]) d
        = get_dependents scenario_db2 d).
Proof.
  apply (accepted_proposal_serialized scenario_db2 1 3 (mkDep 1 3)).
  vm_compute. reflexivity.
Defined.

(** ** Status derivation, continued *)

Lemma deps_query_row (db : DB) (task : Task) :
  deps_query db task ≠ [] → ∃ dep, dep ∈ task_dependencies db ∧ task_id dep = id task.
Proof.
  unfold deps_query. intros Hne.
  destruct (omap _ (task_dependencies db)) as [|d ds] eqn:Hq; [done|].
  assert (d ∈ omap (λ dep, if decide (task_id dep = id task)
                            then mkTask (depends_on_id dep) <$> tasks db !! depends_on_id dep
                            else None) (task_dependencies db)) as Hd
    by (rewrite Hq; by left).
  apply list_elem_of_omap in Hd as (dep & Hin & Hsome).
  exists dep. split; [done|]. by case_decide.
Qed.

(** X16. [auto_update_task_status] raises exactly when the task has
    dependencies but no row of its own to save; under the foreign keys of the
    schema this cannot happen, so the call always returns. *)
Theorem auto_update_raises_iff (db : DB) (task : Task) :
  (auto_update_task_status db task = None ↔
   deps_query db task ≠ [] ∧ tasks db !! id task = None) ∧
  (well_formed db → is_Some (auto_update_task_status db task)).
Proof.
  assert (Hiff : auto_update_task_status db task = None ↔
                 deps_query db task ≠ [] ∧ tasks db !! id task = None).
  { destruct (decide (deps_query db task = [])) as [Hnil|Hne].
    - rewrite auto_update_without_deps by done. split; [done|]. by intros [? _].
    - rewrite auto_update_with_deps by done. simpl.
      destruct (tasks db !! id task); split; try done. by intros [_ ?]. }
  split; [done|]. intros [_ Hfk].
  destruct (auto_update_task_status db task) eqn:Hrun; [done|].
  destruct (proj1 Hiff eq_refl) as [Hne Hnone].
  apply deps_query_row in Hne as (dep & Hin & Hid).
  destruct (Hfk dep Hin) as [[s Hs] _]. congruence.
Qed.

Lemma auto_update_raises_iff_witness :
  is_Some (auto_update_task_status scenario_db2 (mkTask 1 STATUS_COMPLETED)).
Proof.
  apply (proj2 (auto_update_raises_iff scenario_db2 (mkTask 1 STATUS_COMPLETED))).
  split; simpl.
  - repeat constructor; rewrite ?elem_of_cons, ?elem_of_nil; intros Hin;
      repeat destruct Hin as [Hin|Hin]; done.
  - apply Forall_forall. repeat constructor; vm_compute; eexists; reflexivity.
Defined.

Lemma deps_query_insert_other (db : DB) (task : Task) (s : Status) :
  mkDep (id task) (id task) ∉ task_dependencies db →
  deps_query (mkDB (<[id task := s]> (tasks db)) (task_dependencies db))
             (mkTask (id task) s)
  = deps_query db task.
Proof.
  intros Hself. unfold deps_query. simpl.
  apply list_omap_ext, Forall_Forall2_diag, Forall_forall.
  intros [a b] Hin. simpl. case_decide as Ha; [|done]. subst a.
  rewrite lookup_insert_ne; [done|]. by intros <-.
Qed.

(** X17. Unless the task depends on itself, deriving its status a second
    time changes nothing: the call on the task and database left by a first
    call returns them as they are. *)
Theorem auto_update_idempotent (db : DB) (task : Task)
    (ret : unit) (task' : Task) (db' : DB) :
  mkDep (id task) (id task) ∉ task_dependencies db →
  auto_update_task_status db task = Some (ret, task', db') →
  auto_update_task_status db' task' = Some (tt, task', db').
Proof.
  intros Hself Hrun. destruct (decide (deps_query db task = [])) as [Hnil|Hne].
  - rewrite auto_update_without_deps in Hrun by done. simplify_eq.
    by apply auto_update_without_deps.
  - rewrite auto_update_with_deps in Hrun by done. simpl in Hrun.
    destruct (tasks db !! id task) as [old|] eqn:Hrow; [|done]. simplify_eq.
    set (s := derive_status_table (status <$> deps_query db task) (status task)).
    pose proof (deps_query_insert_other db task s Hself) as Hq.
    rewrite auto_update_with_deps by (by rewrite Hq). simpl.
    rewrite Hq, lookup_insert_eq, insert_insert_eq.
    assert (derive_status_table (status <$> deps_query db task) s = s) as ->; [|done].
    subst s. unfold derive_status_table.
    rewrite !(decide_False (P := status <$> deps_query db task = []))
      by (by destruct (deps_query db task)).
    done.
Qed.

Lemma auto_update_idempotent_witness :
  auto_update_task_status (status_db STATUS_BLOCKED STATUS_BLOCKED STATUS_COMPLETED)
                          (mkTask 1 STATUS_BLOCKED)
  = Some (tt, mkTask 1 STATUS_BLOCKED,
          status_db STATUS_BLOCKED STATUS_BLOCKED STATUS_COMPLETED).
Proof.
  apply (auto_update_idempotent (status_db STATUS_PENDING STATUS_BLOCKED STATUS_COMPLETED)
           (mkTask 1 STATUS_PENDING) tt).
  - simpl. rewrite !elem_of_cons, elem_of_nil. intros [Hin|[Hin|[]]]; discriminate Hin.
  - vm_compute. reflexivity.
Defined.

(** With a row from a task to itself, which [TaskDependencyViewSet] can
    create, a second derivation does change the status. *)
Example auto_update_self_dependency :
  auto_update_task_status (mkDB {[ 1%Z := STATUS_COMPLETED ]} [mkDep 1 1])
                          (mkTask 1 STATUS_COMPLETED)
  = Some (tt, mkTask 1 STATUS_IN_PROGRESS,
          mkDB {[ 1%Z := STATUS_IN_PROGRESS ]} [mkDep 1 1]) ∧
  auto_update_task_status (mkDB {[ 1%Z := STATUS_IN_PROGRESS ]} [mkDep 1 1])
                          (mkTask 1 STATUS_IN_PROGRESS)
  = Some (tt, mkTask 1 STATUS_PENDING,
          mkDB {[ 1%Z := STATUS_PENDING ]} [mkDep 1 1]).
Proof. split; vm_compute; reflexivity. Qed.



(** ** Deleting a task *)

(** X19. Deleting a task takes its rows with it and nothing else: the task
    is gone, the rows left are those of the table that do not mention it, the
    schema still holds, and an acyclic table stays acyclic. *)
Theorem destroy_cascades (db : DB) (pk : Z) (db' : DB) :
  TaskViewSet_destroy db pk = Some db' →
  tasks db' !! pk = None ∧
  (∀ dep, dep ∈ task_dependencies db' ↔
          dep ∈ task_dependencies db ∧ task_id dep ≠ pk ∧ depends_on_id dep ≠ pk) ∧
  (well_formed db → well_formed db') ∧
  (acyclic (task_dependencies db) → acyclic (task_dependencies db')).
Proof.
  unfold TaskViewSet_destroy. destruct (tasks db !! pk) eqn:Hpk; [|done].
  intros [= <-]. simpl.
  assert (Hrows : ∀ dep,
             dep ∈ filter (λ dep, task_id dep ≠ pk ∧ depends_on_id dep ≠ pk)
                          (task_dependencies db) ↔
             dep ∈ task_dependencies db ∧ task_id dep ≠ pk ∧ depends_on_id dep ≠ pk).
  { intros dep. rewrite list_elem_of_filter. tauto. }
  split_and!.
  - apply lookup_delete_eq.
  - done.
  - intros [Hnd Hfk]. split; simpl; [by apply NoDup_filter|].
    intros dep (Hin & Ht & Hd)%Hrows. rewrite !lookup_delete_ne by done. by apply Hfk.
  - intros Hac n Hn. apply (Hac n). eapply tc_impl; [|done].
    intros u v Huv. unfold edge in *. by apply Hrows in Huv as [? _].
Qed.

Lemma destroy_cascades_witness :
  tasks (mkDB (delete 2%Z scenario_tasks) []) !! 2%Z = None ∧
  (∀ dep, dep ∈ task_dependencies (mkDB (delete 2%Z scenario_tasks) []) ↔
          dep ∈ task_dependencies scenario_db2 ∧ task_id dep ≠ 2%Z ∧ depends_on_id dep ≠ 2%Z) ∧
  (well_formed scenario_db2 → well_formed (mkDB (delete 2%Z scenario_tasks) [])) ∧
  (acyclic (task_dependencies scenario_db2) →
   acyclic (task_dependencies (mkDB (delete 2%Z scenario_tasks) []))).
Proof.
  apply (destroy_cascades scenario_db2 2). vm_compute. reflexivity.
Defined.
